(** * A shallow embedding of the Lox-style scanner of [main.py]

    The development follows the Python source method by method.  Python
    strings are sequences of Unicode code points, so a character is a
    code point ([N]) and a string is a list of them; the scanner object is
    a record threaded through a small state-and-exception monad, so that
    [IndexError] (from [self.source[i]]) and [ValueError] (from [float])
    are visible in the model and their absence is a theorem. *)

From Stdlib Require Import ZArith NArith List Ascii String Lia Floats Sorted.
From stdpp Require Import base list gmap.
Import ListNotations.

Local Open Scope nat_scope.
Local Open Scope list_scope.

(** ** Characters and strings *)

Abbreviation char := N.
Abbreviation pystr := (list N).

Definition ch (a : ascii) : char := N_of_ascii a.
Arguments ch : simpl never.

Definition pystr_of (s : string) : pystr := map N_of_ascii (list_ascii_of_string s).

Definition NUL : char := 0%N.
Definition NL : char := 10%N.
Definition CR : char := 13%N.
Definition TAB : char := 9%N.
Definition QUOTE : char := 34%N.

(** [s[i:j]] for non-negative [i], [j]: out-of-range bounds are clamped. *)
Definition slice (s : pystr) (i j : nat) : pystr := take (j - i) (drop i s).

(** [str(n)] for a non-negative integer. *)
Fixpoint uint_chars (d : Decimal.uint) : pystr :=
  match d with
  | Decimal.Nil => []
  | Decimal.D0 d => ch "0" :: uint_chars d
  | Decimal.D1 d => ch "1" :: uint_chars d
  | Decimal.D2 d => ch "2" :: uint_chars d
  | Decimal.D3 d => ch "3" :: uint_chars d
  | Decimal.D4 d => ch "4" :: uint_chars d
  | Decimal.D5 d => ch "5" :: uint_chars d
  | Decimal.D6 d => ch "6" :: uint_chars d
  | Decimal.D7 d => ch "7" :: uint_chars d
  | Decimal.D8 d => ch "8" :: uint_chars d
  | Decimal.D9 d => ch "9" :: uint_chars d
  end.

Definition str_int (n : nat) : pystr := uint_chars (Nat.to_uint n).

(** ** Tokens (class [TokenType], class [Token]) *)

Inductive TokenType :=
| LEFT_PAREN | RIGHT_PAREN | LEFT_BRACE | RIGHT_BRACE | STAR | DOT | COMMA
| PLUS | MINUS | SEMICOLON
| EQUAL | EQUAL_EQUAL | BANG | BANG_EQUAL | LESS | LESS_EQUAL
| GREATER | GREATER_EQUAL | SLASH
| STRING | NUMBER | IDENTIFIER
| AND | CLASS | ELSE | FALSE | FOR | FUN | IF | NIL | OR | PRINT | RETURN
| SUPER | THIS | TRUE | VAR | WHILE
| EOF.

#[global] Instance TokenType_eq_dec : EqDecision TokenType.
Proof. solve_decision. Defined.

(** The [literal] field holds a [str] (STRING), a [float] (NUMBER) or
    [None].  A float is an IEEE 754 binary64 value. *)
Inductive Literal :=
| LStr (s : pystr)
| LNum (f : float).

Record Token := mkToken {
  type : TokenType;
  lexeme : pystr;
  literal : option Literal;
  line : nat
}.

(** ** The builtin [float] on decimal numerals

    CPython's [float(str)] returns the binary64 value nearest to the decimal
    numeral (ties to even), and infinity when the numeral is too large.
    The model covers numerals of the shape [digits] or [digits.digits];
    every other argument is answered [None], read as [ValueError].  The
    rounding is computed on exact integers ([round_ratio]) and the result is
    injected into the kernel's binary64 floats. *)

Definition prec64 : Z := 53.
Definition emin64 : Z := -1074.
Definition emax64 : Z := 971.

(** Nearest binary64 to the positive rational [n / d]. *)
Definition round_ratio (n d : Z) : spec_float :=
  if (n <=? 0)%Z then S754_zero false else
  let l := (Z.log2 n - Z.log2 d)%Z in
  let ge := if (0 <=? l)%Z then (d * 2 ^ l <=? n)%Z else (d <=? n * 2 ^ (- l))%Z in
  let e0 := ((if ge then l else l - 1) - (prec64 - 1))%Z in
  let e := Z.max e0 emin64 in
  let num := if (0 <=? e)%Z then n else (n * 2 ^ (- e))%Z in
  let den := if (0 <=? e)%Z then (d * 2 ^ e)%Z else d in
  let q := (num / den)%Z in
  let r := (num mod den)%Z in
  let up := orb (den <? 2 * r)%Z (andb (den =? 2 * r)%Z (Z.odd q)) in
  let q1 := if up then (q + 1)%Z else q in
  let '(m, e1) := if (q1 =? 2 ^ prec64)%Z then (2 ^ (prec64 - 1), e + 1)%Z else (q1, e) in
  if (emax64 <? e1)%Z then S754_infinity false
  else match m with
       | Zpos p => S754_finite false p e1
       | _ => S754_zero false
       end.

Definition is_digit (c : char) : bool := (ch "0" <=? c)%N && (c <=? ch "9")%N.

Definition digit_val (c : char) : Z := Z.of_N (c - ch "0")%N.

Definition digits_val (ds : pystr) : Z :=
  fold_left (fun acc c => (10 * acc + digit_val c)%Z) ds 0%Z.

Fixpoint take_while {A} (p : A -> bool) (l : list A) : list A :=
  match l with
  | x :: l' => if p x then x :: take_while p l' else []
  | [] => []
  end.

Fixpoint drop_while {A} (p : A -> bool) (l : list A) : list A :=
  match l with
  | x :: l' => if p x then drop_while p l' else l
  | [] => []
  end.

Definition py_float (s : pystr) : option float :=
  let ip := take_while is_digit s in
  match ip, drop_while is_digit s with
  | _ :: _, [] => Some (SF2Prim (round_ratio (digits_val ip) 1))
  | _ :: _, c :: fp =>
      if (c =? ch ".")%N && forallb is_digit fp
      then Some (SF2Prim (round_ratio (digits_val (ip ++ fp)) (10 ^ Z.of_nat (length fp))))
      else None
  | [], _ => None
  end.

(** ** The scanner object and its monad

    The counters [start], [current] and [line] are Python integers that
    begin at 0 or 1 and are only ever incremented, so they are natural
    numbers here; the one subtraction, [self.current - 1], is computed after
    an increment.  The field [line] of the scanner is called [cur_line],
    [line] being the field of [Token]. *)

Record Scanner := mkScanner {
  source : pystr;
  tokens : list Token;
  start : nat;
  current : nat;
  cur_line : nat;
  errors : list pystr
}.

(** [Scanner.__init__] *)
Definition Scanner_init (src : pystr) : Scanner :=
  {| source := src; tokens := []; start := 0; current := 0; cur_line := 1; errors := [] |}.

Definition set_tokens (v : list Token) (s : Scanner) : Scanner :=
  {| source := source s; tokens := v; start := start s; current := current s;
     cur_line := cur_line s; errors := errors s |}.
Definition set_start (v : nat) (s : Scanner) : Scanner :=
  {| source := source s; tokens := tokens s; start := v; current := current s;
     cur_line := cur_line s; errors := errors s |}.
Definition set_current (v : nat) (s : Scanner) : Scanner :=
  {| source := source s; tokens := tokens s; start := start s; current := v;
     cur_line := cur_line s; errors := errors s |}.
Definition set_line (v : nat) (s : Scanner) : Scanner :=
  {| source := source s; tokens := tokens s; start := start s; current := current s;
     cur_line := v; errors := errors s |}.
Definition set_errors (v : list pystr) (s : Scanner) : Scanner :=
  {| source := source s; tokens := tokens s; start := start s; current := current s;
     cur_line := cur_line s; errors := v |}.

Inductive exn := IndexError | ValueError.

(** The outcome of running a method: a value, a raised exception, or an
    exhausted iteration budget (the model's stand-in for a loop that has not
    finished). *)
Inductive outcome (A : Type) :=
| Ok (a : A)
| Raise (e : exn)
| OutOfFuel.
Arguments Ok {A} a.
Arguments Raise {A} e.
Arguments OutOfFuel {A}.

Definition M (A : Type) : Type := Scanner -> outcome (A * Scanner).

Definition ret {A} (a : A) : M A := fun s => Ok (a, s).

Definition bind {A B} (m : M A) (k : A -> M B) : M B :=
  fun s => match m s with
           | Ok (a, s') => k a s'
           | Raise e => Raise e
           | OutOfFuel => OutOfFuel
           end.

Definition raise {A} (e : exn) : M A := fun _ => Raise e.
Definition get {A} (f : Scanner -> A) : M A := fun s => Ok (f s, s).
Definition modify (f : Scanner -> Scanner) : M unit := fun s => Ok (tt, f s).

Notation "x <- m ;; k" := (bind m (fun x => k))
  (at level 100, m at next level, right associativity).
Notation "m ;; k" := (bind m (fun _ => k))
  (at level 100, right associativity).

(** [s[i]] for a non-negative index. *)
Definition index (s : pystr) (i : nat) : M char :=
  match s !! i with
  | Some c => ret c
  | None => raise IndexError
  end.

(** [while cond: body], with an iteration budget. *)
Fixpoint while (fuel : nat) (cond : M bool) (body : M unit) : M unit :=
  match fuel with
  | 0 => fun _ => OutOfFuel
  | S fuel' =>
      b <- cond ;;
      if b then body ;; while fuel' cond body else ret tt
  end.

(** ** The methods of [Scanner] *)

Definition is_at_end : M bool :=
  cur <- get current ;; src <- get source ;;
  ret (length src <=? cur).

Definition advance : M char :=
  cur <- get current ;;
  modify (set_current (cur + 1)) ;;
  cur <- get current ;; src <- get source ;;
  index src (cur - 1).

Definition add_token (ty : TokenType) (lit : option Literal) : M unit :=
  src <- get source ;; st <- get start ;; cur <- get current ;;
  let text := slice src st cur in
  ln <- get cur_line ;; toks <- get tokens ;;
  modify (set_tokens (toks ++ [mkToken ty text lit ln])).

Definition peek : M char :=
  e <- is_at_end ;;
  if e then ret NUL
  else cur <- get current ;; src <- get source ;; index src cur.

Definition peek_next : M char :=
  cur <- get current ;; src <- get source ;;
  if length src <=? cur + 1 then ret NUL
  else index src (cur + 1).

Definition match_ (expected : char) : M bool :=
  e <- is_at_end ;;
  if e then ret false
  else
    cur <- get current ;; src <- get source ;;
    c <- index src cur ;;
    if negb (c =? expected)%N then ret false
    else modify (set_current (cur + 1)) ;; ret true.

Definition error (msg : pystr) : M unit :=
  ln <- get cur_line ;; errs <- get errors ;;
  modify (set_errors (errs ++ [pystr_of "[line " ++ str_int ln ++ pystr_of "] Error: " ++ msg])).

Definition string_ (fuel : nat) : M unit :=
  while fuel
    (c <- peek ;; e <- is_at_end ;; ret (negb (c =? QUOTE)%N && negb e))
    (c <- peek ;;
     (if (c =? NL)%N then ln <- get cur_line ;; modify (set_line (ln + 1)) else ret tt) ;;
     advance ;; ret tt) ;;
  e <- is_at_end ;;
  if e then
    ln <- get cur_line ;; errs <- get errors ;;
    modify (set_errors (errs ++ [pystr_of "[line " ++ str_int ln ++ pystr_of "] Error: Unterminated string."]))
  else
    advance ;;
    src <- get source ;; st <- get start ;; cur <- get current ;;
    let value := slice src (st + 1) (cur - 1) in
    add_token STRING (Some (LStr value)).

Definition float_ (s : pystr) : M float :=
  match py_float s with
  | Some f => ret f
  | None => raise ValueError
  end.

Definition number (fuel : nat) : M unit :=
  while fuel (c <- peek ;; ret (is_digit c)) (advance ;; ret tt) ;;
  c <- peek ;; c' <- peek_next ;;
  (if (c =? ch ".")%N && is_digit c' then advance ;; ret tt else ret tt) ;;
  while fuel (c <- peek ;; ret (is_digit c)) (advance ;; ret tt) ;;
  src <- get source ;; st <- get start ;; cur <- get current ;;
  f <- float_ (slice src st cur) ;;
  add_token NUMBER (Some (LNum f)).

Definition is_alpha (c : char) : bool :=
  (ch "a" <=? c)%N && (c <=? ch "z")%N || (ch "A" <=? c)%N && (c <=? ch "Z")%N
  || (c =? ch "_")%N.

Definition is_alpha_numeric (c : char) : bool := is_alpha c || is_digit c.

Definition reserved_table : list (pystr * TokenType) :=
  [
    (pystr_of "and", AND);
    (pystr_of "class", CLASS);
    (pystr_of "else", ELSE);
    (pystr_of "false", FALSE);
    (pystr_of "for", FOR);
    (pystr_of "fun", FUN);
    (pystr_of "if", IF);
    (pystr_of "nil", NIL);
    (pystr_of "or", OR);
    (pystr_of "print", PRINT);
    (pystr_of "return", RETURN);
    (pystr_of "super", SUPER);
    (pystr_of "this", THIS);
    (pystr_of "true", TRUE);
    (pystr_of "var", VAR);
    (pystr_of "while", WHILE)
  ].

Definition reserved_words : gmap (list N) TokenType := list_to_map reserved_table.

Definition identifier_type (text : pystr) : TokenType :=
  default IDENTIFIER (reserved_words !! text).

Definition identifier (fuel : nat) : M unit :=
  while fuel (c <- peek ;; ret (is_alpha_numeric c)) (advance ;; ret tt) ;;
  src <- get source ;; st <- get start ;; cur <- get current ;;
  let text := slice src st cur in
  let token_type := identifier_type text in
  add_token token_type None.

(** The [match char:] statement of [scan_token]. *)
Definition dispatch (fuel : nat) (c : char) : M unit :=
  if (c =? ch "(")%N then add_token LEFT_PAREN None
  else if (c =? ch ")")%N then add_token RIGHT_PAREN None
  else if (c =? ch "{")%N then add_token LEFT_BRACE None
  else if (c =? ch "}")%N then add_token RIGHT_BRACE None
  else if (c =? ch "*")%N then add_token STAR None
  else if (c =? ch ".")%N then add_token DOT None
  else if (c =? ch ",")%N then add_token COMMA None
  else if (c =? ch "+")%N then add_token PLUS None
  else if (c =? ch "-")%N then add_token MINUS None
  else if (c =? ch ";")%N then add_token SEMICOLON None
  else if (c =? ch "!")%N then
    b <- match_ (ch "=") ;; if b then add_token BANG_EQUAL None else add_token BANG None
  else if (c =? ch "=")%N then
    b <- match_ (ch "=") ;; if b then add_token EQUAL_EQUAL None else add_token EQUAL None
  else if (c =? ch "<")%N then
    b <- match_ (ch "=") ;; if b then add_token LESS_EQUAL None else add_token LESS None
  else if (c =? ch ">")%N then
    b <- match_ (ch "=") ;; if b then add_token GREATER_EQUAL None else add_token GREATER None
  else if (c =? ch "/")%N then
    b <- match_ (ch "/") ;;
    if b then
      while fuel (c <- peek ;; e <- is_at_end ;; ret (negb (c =? NL)%N && negb e))
                 (advance ;; ret tt)
    else add_token SLASH None
  else if (c =? ch " ")%N || (c =? CR)%N || (c =? TAB)%N then ret tt
  else if (c =? NL)%N then ln <- get cur_line ;; modify (set_line (ln + 1))
  else if (c =? QUOTE)%N then string_ fuel
  else
    if is_digit c then number fuel
    else if is_alpha_numeric c then identifier fuel
    else error (pystr_of "Unexpected character: " ++ [c]).

Definition scan_token (fuel : nat) : M unit :=
  c <- advance ;; dispatch fuel c.

Definition scan_tokens (fuel : nat) : M (list Token * list pystr) :=
  while fuel (e <- is_at_end ;; ret (negb e))
             (cur <- get current ;; modify (set_start cur) ;; scan_token fuel) ;;
  ln <- get cur_line ;; toks <- get tokens ;;
  modify (set_tokens (toks ++ [mkToken EOF [] None ln])) ;;
  toks <- get tokens ;; errs <- get errors ;;
  ret (toks, errs).

(** [Scanner(src).scan_tokens()].  Every loop of the scanner consumes at
    least one character per iteration, so [length src + 1] iterations are
    enough for each of them (shown below, together with the fact that a
    larger budget gives the same result). *)
Definition scan_with (fuel : nat) (src : pystr) : outcome (list Token * list pystr) :=
  match scan_tokens fuel (Scanner_init src) with
  | Ok (r, _) => Ok r
  | Raise e => Raise e
  | OutOfFuel => OutOfFuel
  end.

Definition scan (src : pystr) : outcome (list Token * list pystr) :=
  scan_with (S (length src)) src.

(** The body of the loop of [scan_tokens]: one top-level dispatch. *)
Definition iteration (fuel : nat) : M unit :=
  cur <- get current ;; modify (set_start cur) ;; scan_token fuel.

(** ** Specification vocabulary *)

(** Sum of the weights [w c] of the characters of a text. *)
Fixpoint weigh (w : N -> nat) (l : pystr) : nat :=
  match l with
  | [] => 0
  | c :: l' => w c + weigh w l'
  end.

(** Number of newline characters of a text. *)
Definition nl_weight (c : char) : nat := if (c =? NL)%N then 1 else 0.
Definition count_nl (l : pystr) : nat := weigh nl_weight l.

(** 1-based number of the line that holds offset [off] of [src]. *)
Definition line_of (src : pystr) (off : nat) : nat := 1 + count_nl (take off src).

(** The cursor moved [k] characters and the line counter [dl] lines. *)
Definition moved (k dl : nat) (s : Scanner) : Scanner :=
  set_line (cur_line s + dl) (set_current (current s + k) s).

(** A token was appended by [add_token]. *)
Definition emitted (ty : TokenType) (lit : option Literal) (s : Scanner) : Scanner :=
  set_tokens (tokens s ++ [mkToken ty (slice (source s) (start s) (current s)) lit (cur_line s)]) s.

(** The text of a diagnostic: [f"[line {ln}] Error: {msg}"]. *)
Definition diagnostic (ln : nat) (msg : pystr) : pystr :=
  pystr_of "[line " ++ str_int ln ++ pystr_of "] Error: " ++ msg.

(** The tests of the loops of [string] and of the comment branch. *)
Definition not_quote (c : char) : bool := negb (c =? QUOTE)%N.
Definition not_nl (c : char) : bool := negb (c =? NL)%N.

(** The unterminated-string diagnostic was appended. *)
Definition unterminated (s : Scanner) : Scanner :=
  set_errors (errors s ++ [diagnostic (cur_line s) (pystr_of "Unterminated string.")]) s.

(** The fractional part that [number] accepts at the head of [rest]: a dot
    followed by at least one digit, with the whole run of digits. *)
Definition fraction (rest : pystr) : pystr :=
  match rest with
  | c :: c' :: rest' =>
      if (c =? ch ".")%N && is_digit c' then c :: take_while is_digit (c' :: rest') else []
  | _ => []
  end.

(** The text that [number] matches at the head of [suffix]. *)
Definition number_lexeme (suffix : pystr) : pystr :=
  take_while is_digit suffix ++ fraction (drop_while is_digit suffix).

(** The state one iteration leaves behind when, started at the loop head
    [s], it consumes [text] and appends the tokens [toks] and the diagnostics
    [errs]. *)
Definition after (s : Scanner) (text : pystr) (toks : list Token) (errs : list pystr)
  : Scanner :=
  {| source := source s;
     tokens := tokens s ++ toks;
     start := current s;
     current := current s + length text;
     cur_line := cur_line s + count_nl text;
     errors := errors s ++ errs |}.

(** The state in which [scan_token] dispatches: [start] is set and the first
    character is consumed. *)
Definition begun (s : Scanner) : Scanner :=
  set_current (current s + 1) (set_start (current s) s).

(** What every iteration guarantees about the text it consumed and what it
    appended: the text is a non-empty piece of the source at the cursor; at
    most one diagnostic, carrying the line counter's new value; at most one
    token, whose lexeme is the text and whose line is the line counter's new
    value. *)
Record step_shape (s : Scanner) (text : pystr) (toks : list Token) (errs : list pystr)
  : Prop := {
  shape_text :
    drop (current s) (source s) = text ++ drop (current s + length text) (source s);
  shape_nonempty : text <> [];
  shape_errors :
    errs = [] \/ exists msg, errs = [diagnostic (cur_line s + count_nl text) msg];
  shape_tokens :
    toks = [] \/
    exists ty lit,
      toks = [mkToken ty text lit (cur_line s + count_nl text)] /\
      ty <> EOF /\ (ty <> STRING -> count_nl text = 0) /\ last text <> Some NL
}.

(** From the loop head [s], iterations of the expected shape lead to [s'],
    where the cursor is at the end of the source. *)
Inductive run_to : Scanner -> Scanner -> Prop :=
| run_done s : length (source s) <= current s -> run_to s s
| run_step s text toks errs s' :
    current s < length (source s) ->
    step_shape s text toks errs ->
    run_to (after s text toks errs) s' ->
    run_to s s'.

(** Whenever [a] returns, [b] returns the same. *)
Definition refines {A} (a b : M A) : Prop := forall s r, a s = Ok r -> b s = Ok r.

(** The order of tokens by line. *)
Definition line_le (a b : Token) : Prop := line a <= line b.

(** Token [t] was cut from [src] at offset [off]. *)
Definition spans (src : pystr) (off : nat) (t : Token) : Prop :=
  lexeme t <> [] /\
  off + length (lexeme t) <= length src /\
  slice src off (off + length (lexeme t)) = lexeme t.

(** The line of [t] is the line on which its lexeme begins. *)
Definition on_start_line (src : pystr) (off : nat) (t : Token) : Prop :=
  line t = line_of src off.

(** The line of [t] is the line on which its lexeme ends. *)
Definition on_end_line (src : pystr) (off : nat) (t : Token) : Prop :=
  line t = line_of src (off + length (lexeme t) - 1).

(** What the scanner does: the line of a token is that of the end of its
    lexeme, which is also that of its beginning when the lexeme holds no
    newline, and only STRING lexemes can hold one. *)
Definition lexeme_line (src : pystr) (off : nat) (t : Token) : Prop :=
  on_end_line src off t /\
  (count_nl (lexeme t) = 0 -> on_start_line src off t) /\
  (type t <> STRING -> count_nl (lexeme t) = 0).

(** The tokens [body] lie at the offsets [offs], in order and without
    overlap, at or after offset [lo], each obeying [rule]. *)
Fixpoint placed_from (rule : pystr -> nat -> Token -> Prop)
    (src : pystr) (lo : nat) (offs : list nat) (body : list Token) : Prop :=
  match offs, body with
  | [], [] => True
  | off :: offs', t :: body' =>
      lo <= off /\ spans src off t /\ rule src off t /\
      placed_from rule src (off + length (lexeme t)) offs' body'
  | _, _ => False
  end.

(** C1 as the specification words it: every token but the final EOF reports
    the line on which its lexeme begins. *)
Definition lines_are_start_lines (src : pystr) : Prop :=
  exists body errs eof offs,
    scan src = Ok (body ++ [eof], errs) /\
    placed_from on_start_line src 0 offs body.

(** A string literal with [a] on line 1 and [b] on line 2. *)
Definition multi_line_string : pystr := QUOTE :: pystr_of "a" ++ NL :: pystr_of "b" ++ [QUOTE].

(** One iteration from the loop head [s] moves the cursor by [k], leaves the
    line counter at [ln] and appends the tokens [toks] and the diagnostics
    [errs]. *)
Definition step_to (fuel : nat) (s : Scanner) (k ln : nat)
    (toks : list Token) (errs : list pystr) : Prop :=
  iteration fuel s =
    Ok (tt, {| source := source s;
               tokens := tokens s ++ toks;
               start := current s;
               current := current s + k;
               cur_line := ln;
               errors := errors s ++ errs |}).

(** ASCII letters. *)
Definition is_ascii_letter (c : char) : bool :=
  (ch "a" <=? c)%N && (c <=? ch "z")%N || (ch "A" <=? c)%N && (c <=? ch "Z")%N.

(** The character is matched by no rule of the dispatch: it is neither
    punctuation, nor an operator character, nor a slash, nor whitespace, nor
    a newline, nor a double quote, nor an ASCII digit or letter, nor an
    underscore. *)
Definition matches_no_rule (c : char) : bool :=
  negb (existsb (N.eqb c) (pystr_of "(){}*.,+-;")
        || existsb (N.eqb c) (pystr_of "!=<>")
        || (c =? ch "/")%N
        || existsb (N.eqb c) [ch " "; CR; TAB]
        || (c =? NL)%N
        || (c =? QUOTE)%N
        || is_digit c
        || is_ascii_letter c
        || (c =? ch "_")%N).

(** The first character of [l], if any, fails [p]. *)
Definition stops (p : N -> bool) (l : pystr) : Prop :=
  from_option p false (head l) = false.

(** The five characters: quote, [a], backslash, quote, [b]. *)
Definition escaped_quote_source : pystr :=
  QUOTE :: pystr_of "a\" ++ QUOTE :: pystr_of "b".

(** ASCII lower-case letters. *)
Definition is_lower (c : char) : bool := (ch "a" <=? c)%N && (c <=? ch "z")%N.

(** The sixteen reserved words. *)
Definition keywords : list pystr :=
  map pystr_of
    ["and"; "class"; "else"; "false"; "for"; "fun"; "if"; "nil"; "or"; "print";
     "return"; "super"; "this"; "true"; "var"; "while"]%string.

(** ** Pieces of the source

    The vocabulary for describing a whole scan as a segmentation of the
    source into consecutive pieces. *)

(** The lexeme of the kinds that have only one. *)
Definition fixed_lexeme (ty : TokenType) : option pystr :=
  match ty with
  | LEFT_PAREN => Some (pystr_of "(")
  | RIGHT_PAREN => Some (pystr_of ")")
  | LEFT_BRACE => Some (pystr_of "{")
  | RIGHT_BRACE => Some (pystr_of "}")
  | STAR => Some (pystr_of "*")
  | DOT => Some (pystr_of ".")
  | COMMA => Some (pystr_of ",")
  | PLUS => Some (pystr_of "+")
  | MINUS => Some (pystr_of "-")
  | SEMICOLON => Some (pystr_of ";")
  | EQUAL => Some (pystr_of "=")
  | EQUAL_EQUAL => Some (pystr_of "==")
  | BANG => Some (pystr_of "!")
  | BANG_EQUAL => Some (pystr_of "!=")
  | LESS => Some (pystr_of "<")
  | LESS_EQUAL => Some (pystr_of "<=")
  | GREATER => Some (pystr_of ">")
  | GREATER_EQUAL => Some (pystr_of ">=")
  | SLASH => Some (pystr_of "/")
  | STRING | NUMBER | IDENTIFIER => None
  | AND => Some (pystr_of "and")
  | CLASS => Some (pystr_of "class")
  | ELSE => Some (pystr_of "else")
  | FALSE => Some (pystr_of "false")
  | FOR => Some (pystr_of "for")
  | FUN => Some (pystr_of "fun")
  | IF => Some (pystr_of "if")
  | NIL => Some (pystr_of "nil")
  | OR => Some (pystr_of "or")
  | PRINT => Some (pystr_of "print")
  | RETURN => Some (pystr_of "return")
  | SUPER => Some (pystr_of "super")
  | THIS => Some (pystr_of "this")
  | TRUE => Some (pystr_of "true")
  | VAR => Some (pystr_of "var")
  | WHILE => Some (pystr_of "while")
  | EOF => Some []
  end.

(** IDENTIFIER and the reserved-word kinds. *)
Definition is_word (ty : TokenType) : bool :=
  match ty with
  | IDENTIFIER | AND | CLASS | ELSE | FALSE | FOR | FUN | IF | NIL | OR | PRINT
  | RETURN | SUPER | THIS | TRUE | VAR | WHILE => true
  | _ => false
  end.

(** The one-character kinds that have a two-character variant. *)
Definition is_short_operator (ty : TokenType) : bool :=
  match ty with
  | BANG | EQUAL | LESS | GREATER => true
  | _ => false
  end.

(** Digits, optionally followed by a dot and digits. *)
Definition number_shape (text : pystr) : Prop :=
  exists ds fr,
    text = ds ++ fr /\ ds <> [] /\ Forall (fun c => is_digit c = true) ds /\
    (fr = [] \/
     exists fs, fr = ch "." :: fs /\ fs <> [] /\ Forall (fun c => is_digit c = true) fs).

(** A letter or underscore followed by letters, digits and underscores. *)
Definition identifier_shape (text : pystr) : Prop :=
  exists c r,
    text = c :: r /\ is_alpha c = true /\ Forall (fun x => is_alpha_numeric x = true) r.

(** Kind, lexeme and literal of a token agree. *)
Definition token_ok (ty : TokenType) (text : pystr) (lit : option Literal) : Prop :=
  match ty with
  | STRING => exists v, text = QUOTE :: v ++ [QUOTE] /\ (QUOTE ∉ v) /\ lit = Some (LStr v)
  | NUMBER => number_shape text /\ exists f, py_float text = Some f /\ lit = Some (LNum f)
  | IDENTIFIER => identifier_shape text /\ (text ∉ keywords) /\ lit = None
  | _ => fixed_lexeme ty = Some text /\ lit = None
  end.

(** The lexeme [text] of a token of kind [ty] could not have been longer:
    [rest] is what follows it in the source. *)
Definition maximal (ty : TokenType) (text rest : pystr) : Prop :=
  (is_word ty = true -> stops is_alpha_numeric rest) /\
  (ty = NUMBER -> stops is_digit rest /\ ((ch "." ∈ text) \/ fraction rest = [])) /\
  (is_short_operator ty = true -> stops (N.eqb (ch "=")) rest) /\
  (ty = SLASH -> stops (N.eqb (ch "/")) rest).

(** Text skipped without a trace: one whitespace or newline character, or a
    comment from [//] up to, and without, the end of the line. *)
Definition trivia (text rest : pystr) : Prop :=
  (exists c, text = [c] /\ c ∈ [ch " "; CR; TAB; NL]) \/
  (exists body, text = ch "/" :: ch "/" :: body /\ (NL ∉ body) /\ stops not_nl rest).

(** What one iteration made of the piece [text], followed by [rest] in the
    source, when the line counter was [ln]. *)
Inductive step_case (ln : nat) (text rest : pystr) : list Token -> list pystr -> Prop :=
| case_token ty lit :
    token_ok ty text lit -> maximal ty text rest ->
    step_case ln text rest [mkToken ty text lit (ln + count_nl text)] []
| case_trivia :
    trivia text rest ->
    step_case ln text rest [] []
| case_unexpected c :
    text = [c] -> matches_no_rule c = true ->
    step_case ln text rest []
      [diagnostic ln (pystr_of "Unexpected character: " ++ [c])]
| case_unterminated body :
    text = QUOTE :: body -> QUOTE ∉ body -> rest = [] ->
    step_case ln text rest []
      [diagnostic (ln + count_nl text) (pystr_of "Unterminated string.")].

(** A piece of the source with the tokens and diagnostics it gave. *)
Record piece := mkPiece {
  p_text : pystr;
  p_toks : list Token;
  p_errs : list pystr
}.

(** The pieces [ps] segment [src] from offset [off] to its end, each one
    being a case of [step_case] at the line of its first character. *)
Fixpoint lexes (src : pystr) (off : nat) (ps : list piece) : Prop :=
  match ps with
  | [] => length src <= off
  | p :: ps' =>
      drop off src = p_text p ++ drop (off + length (p_text p)) src /\
      p_text p <> [] /\
      step_case (line_of src off) (p_text p) (drop (off + length (p_text p)) src)
                (p_toks p) (p_errs p) /\
      lexes src (off + length (p_text p)) ps'
  end.

Definition pieces_tokens (ps : list piece) : list Token := concat (map p_toks ps).
Definition pieces_errors (ps : list piece) : list pystr := concat (map p_errs ps).

(** ** Printing tokens ([Token.__str__], [monitor_tokenization]) *)

(** [TokenType.value]: the value of each member is its own name. *)
Definition TokenType_value (ty : TokenType) : pystr :=
  pystr_of
    match ty with
    | LEFT_PAREN => "LEFT_PAREN" | RIGHT_PAREN => "RIGHT_PAREN"
    | LEFT_BRACE => "LEFT_BRACE" | RIGHT_BRACE => "RIGHT_BRACE"
    | STAR => "STAR" | DOT => "DOT" | COMMA => "COMMA" | PLUS => "PLUS"
    | MINUS => "MINUS" | SEMICOLON => "SEMICOLON"
    | EQUAL => "EQUAL" | EQUAL_EQUAL => "EQUAL_EQUAL"
    | BANG => "BANG" | BANG_EQUAL => "BANG_EQUAL"
    | LESS => "LESS" | LESS_EQUAL => "LESS_EQUAL"
    | GREATER => "GREATER" | GREATER_EQUAL => "GREATER_EQUAL"
    | SLASH => "SLASH" | STRING => "STRING" | NUMBER => "NUMBER"
    | IDENTIFIER => "IDENTIFIER"
    | AND => "AND" | CLASS => "CLASS" | ELSE => "ELSE" | FALSE => "FALSE"
    | FOR => "FOR" | FUN => "FUN" | IF => "IF" | NIL => "NIL" | OR => "OR"
    | PRINT => "PRINT" | RETURN => "RETURN" | SUPER => "SUPER" | THIS => "THIS"
    | TRUE => "TRUE" | VAR => "VAR" | WHILE => "WHILE"
    | EOF => "EOF"
    end%string.

(** [Token.__str__].  The text of a float, [str(f)], is left to the
    parameter [str_float]; the text of a [str] literal is the literal. *)
Definition Token_str (str_float : float -> pystr) (t : Token) : pystr :=
  let literal_str :=
    match literal t with
    | None => pystr_of "null"
    | Some (LStr v) => v
    | Some (LNum f) => str_float f
    end in
  TokenType_value (type t) ++ pystr_of " " ++ lexeme t ++ pystr_of " " ++ literal_str.



(** ** Further vocabulary *)

(** A diagnostic of the source [src]: the fixed format, a line of the source,
    and one of the two messages. *)
Definition diag_ok (src : pystr) (e : pystr) : Prop :=
  exists ln,
    1 <= ln <= 1 + count_nl src /\
    (e = pystr_of "[line " ++ str_int ln ++ pystr_of "] Error: Unterminated string." \/
     exists c,
       c ∈ src /\ matches_no_rule c = true /\
       e = pystr_of "[line " ++ str_int ln
           ++ pystr_of "] Error: Unexpected character: " ++ [c]).

(** The ten characters that are a token by themselves. *)
Definition punctuation_table : list (N * TokenType) :=
  [(ch "(", LEFT_PAREN); (ch ")", RIGHT_PAREN); (ch "{", LEFT_BRACE);
   (ch "}", RIGHT_BRACE); (ch "*", STAR); (ch ".", DOT); (ch ",", COMMA);
   (ch "+", PLUS); (ch "-", MINUS); (ch ";", SEMICOLON)].

(** The four characters that form a longer operator with [=]: the
    character, the kind alone, the kind with [=]. *)
Definition operator_table : list (N * TokenType * TokenType) :=
  [(ch "!", BANG, BANG_EQUAL); (ch "=", EQUAL, EQUAL_EQUAL);
   (ch "<", LESS, LESS_EQUAL); (ch ">", GREATER, GREATER_EQUAL)].

(** A comment on line 1 and the number 1 on line 2. *)
Definition comment_then_number : pystr :=
  pystr_of "// comment" ++ NL :: pystr_of "1".

(** Whitespace and newline characters. *)
Definition blank (c : N) : Prop := c ∈ [ch " "; CR; TAB; NL].

(** Any character but the space. *)
Definition not_space (c : N) : bool := negb (c =? ch " ")%N.

(** Every member of [TokenType]. *)
Definition all_kinds : list TokenType :=
  [LEFT_PAREN; RIGHT_PAREN; LEFT_BRACE; RIGHT_BRACE; STAR; DOT; COMMA; PLUS; MINUS;
   SEMICOLON; EQUAL; EQUAL_EQUAL; BANG; BANG_EQUAL; LESS; LESS_EQUAL; GREATER;
   GREATER_EQUAL; SLASH; STRING; NUMBER; IDENTIFIER; AND; CLASS; ELSE; FALSE; FOR;
   FUN; IF; NIL; OR; PRINT; RETURN; SUPER; THIS; TRUE; VAR; WHILE; EOF].

(** Reading a kind back from the first word of a printed token. *)
Definition kind_of_line (l : pystr) : option TokenType :=
  snd <$> list_find (fun ty => TokenType_value ty = take_while not_space l) all_kinds.

(** * Proofs *)

Ltac scanner_eq :=
  repeat match goal with x := _ : Scanner |- _ => subst x end;
  repeat match goal with s : Scanner |- _ => destruct s end;
  unfold moved, emitted, set_tokens, set_start, set_current, set_line, set_errors in *;
  simpl in *; repeat first [reflexivity | lia | progress f_equal].

Lemma Ok_state {A} (a : A) (s1 s2 : Scanner) : s1 = s2 -> Ok (a, s1) = Ok (a, s2).
Proof. by intros ->. Qed.

Ltac ok_eq := unfold ret; apply Ok_state; scanner_eq.

Section Primitives.
Context {A B : Type}.

Lemma bind_ok (m : M A) (k : A -> M B) s a s' :
  m s = Ok (a, s') -> bind m k s = k a s'.
Proof. unfold bind. intros ->. reflexivity. Qed.

Lemma bind_inv (m : M A) (k : A -> M B) s r :
  bind m k s = Ok r -> exists a s', m s = Ok (a, s') /\ k a s' = Ok r.
Proof.
  unfold bind. destruct (m s) as [[a s']| |]; try discriminate.
  intros H. exists a, s'. auto.
Qed.
End Primitives.

Lemma is_at_end_run s : is_at_end s = Ok (length (source s) <=? current s, s).
Proof. reflexivity. Qed.

Lemma lookup_at_end (s : Scanner) :
  (length (source s) <=? current s) = true -> source s !! current s = None.
Proof. intros H. apply Nat.leb_le in H. by apply lookup_ge_None_2. Qed.

Lemma lookup_not_at_end (s : Scanner) :
  (length (source s) <=? current s) = false -> is_Some (source s !! current s).
Proof. intros H. apply Nat.leb_gt in H. by apply lookup_lt_is_Some_2. Qed.

Lemma advance_run s c :
  source s !! current s = Some c ->
  advance s = Ok (c, set_current (current s + 1) s).
Proof.
  intros H. unfold advance, bind, get, modify, index. simpl.
  replace (current s + 1 - 1) with (current s) by lia. rewrite H. reflexivity.
Qed.

Lemma advance_inv s c s' :
  advance s = Ok (c, s') ->
  source s !! current s = Some c /\ s' = set_current (current s + 1) s.
Proof.
  unfold advance, bind, get, modify, index. simpl.
  replace (current s + 1 - 1) with (current s) by lia.
  destruct (source s !! current s); simpl; [|discriminate].
  intros [= -> <-]. auto.
Qed.

Lemma peek_run s : peek s = Ok (default NUL (source s !! current s), s).
Proof.
  unfold peek, bind. rewrite is_at_end_run.
  destruct (length (source s) <=? current s) eqn:E.
  - rewrite (lookup_at_end _ E). reflexivity.
  - destruct (lookup_not_at_end _ E) as [c Hc].
    unfold get, index. simpl. rewrite Hc. reflexivity.
Qed.

Lemma peek_next_run s : peek_next s = Ok (default NUL (source s !! (current s + 1)), s).
Proof.
  unfold peek_next, bind, get. simpl.
  destruct (length (source s) <=? current s + 1) eqn:E.
  - apply Nat.leb_le in E. rewrite (lookup_ge_None_2 _ _ E). reflexivity.
  - apply Nat.leb_gt in E. destruct (lookup_lt_is_Some_2 _ _ E) as [c Hc].
    unfold index. rewrite Hc. reflexivity.
Qed.

Lemma match_run expected s :
  match_ expected s =
    if bool_decide (source s !! current s = Some expected)
    then Ok (true, set_current (current s + 1) s)
    else Ok (false, s).
Proof.
  unfold match_, bind. rewrite is_at_end_run.
  destruct (length (source s) <=? current s) eqn:E.
  - rewrite (lookup_at_end _ E). rewrite bool_decide_eq_false_2; [reflexivity | discriminate].
  - destruct (lookup_not_at_end _ E) as [c Hc].
    unfold get, index. simpl. rewrite Hc. simpl.
    destruct (c =? expected)%N eqn:Ec; simpl.
    + apply N.eqb_eq in Ec. subst. rewrite bool_decide_eq_true_2; reflexivity.
    + apply N.eqb_neq in Ec. rewrite bool_decide_eq_false_2; [reflexivity | congruence].
Qed.

Lemma add_token_run ty lit s : add_token ty lit s = Ok (tt, emitted ty lit s).
Proof. reflexivity. Qed.

Lemma error_run msg s :
  error msg s = Ok (tt, set_errors (errors s ++ [diagnostic (cur_line s) msg]) s).
Proof. reflexivity. Qed.

(** *** Loops that sweep the cursor forward

    All four inner loops of the scanner have the same shape: the test looks
    at the character under the cursor and fails at the end of the source,
    the body consumes that character (the loop of [string] also counts a
    newline).  Such a loop stops after the longest run of characters that
    pass the test. *)

Section SweepLoop.
Variables (p : N -> bool) (w : N -> nat) (cond : M bool) (body : M unit).
Hypothesis cond_run :
  forall s, cond s = Ok (from_option p false (source s !! current s), s).
Hypothesis body_run :
  forall s c, source s !! current s = Some c -> body s = Ok (tt, moved 1 (w c) s).

Lemma while_sweep fuel : forall s,
  length (take_while p (drop (current s) (source s))) < fuel ->
  while fuel cond body s =
    Ok (tt, moved (length (take_while p (drop (current s) (source s))))
                  (weigh w (take_while p (drop (current s) (source s)))) s).
Proof.
  induction fuel as [|fuel IH]; intros s Hlt; [lia|].
  simpl. rewrite (bind_ok _ _ _ _ _ (cond_run s)).
  destruct (source s !! current s) as [c|] eqn:E; simpl.
  - rewrite (drop_S _ _ _ E) in *. simpl in *.
    destruct (p c) eqn:Ep; simpl in *.
    + rewrite (bind_ok _ _ _ _ _ (body_run s c E)).
      specialize (IH (moved 1 (w c) s)).
      replace (current (moved 1 (w c) s)) with (S (current s)) in IH
        by (destruct s; simpl; lia).
      replace (source (moved 1 (w c) s)) with (source s) in IH by (by destruct s).
      rewrite IH by lia. ok_eq.
    + ok_eq.
  - apply lookup_ge_None_1 in E. rewrite drop_ge by lia. simpl.
    ok_eq.
Qed.
End SweepLoop.

Lemma weigh_zero l : weigh (fun _ => 0) l = 0.
Proof. induction l; simpl; auto. Qed.

Lemma advance_body_run s c :
  source s !! current s = Some c ->
  (advance ;; ret tt) s = Ok (tt, moved 1 0 s).
Proof.
  intros H. rewrite (bind_ok _ _ _ _ _ (advance_run s c H)).
  ok_eq.
Qed.

(** The test [p(self.peek())], for a [p] that rejects the end marker. *)
Lemma peek_cond_run (p : N -> bool) s :
  p NUL = false ->
  (c <- peek ;; ret (p c)) s = Ok (from_option p false (source s !! current s), s).
Proof.
  intros Hp. rewrite (bind_ok _ _ _ _ _ (peek_run s)). unfold ret.
  destruct (source s !! current s); simpl; congruence.
Qed.

(** The test [self.peek() != x and not self.is_at_end()]. *)
Lemma until_cond_run (x : N) s :
  (c <- peek ;; e <- is_at_end ;; ret (negb (c =? x)%N && negb e)) s =
  Ok (from_option (fun c => negb (c =? x)%N) false (source s !! current s), s).
Proof.
  rewrite (bind_ok _ _ _ _ _ (peek_run s)).
  rewrite (bind_ok _ _ _ _ _ (is_at_end_run s)). unfold ret.
  destruct (length (source s) <=? current s) eqn:E.
  - rewrite (lookup_at_end _ E). simpl. by rewrite andb_false_r.
  - destruct (lookup_not_at_end _ E) as [c ->]. simpl. by rewrite andb_true_r.
Qed.

Lemma string_body_run s c :
  source s !! current s = Some c ->
  (c <- peek ;;
   (if (c =? NL)%N then ln <- get cur_line ;; modify (set_line (ln + 1)) else ret tt) ;;
   advance ;; ret tt) s = Ok (tt, moved 1 (nl_weight c) s).
Proof.
  intros H. rewrite (bind_ok _ _ _ _ _ (peek_run s)). rewrite H. simpl.
  unfold nl_weight. destruct (c =? NL)%N.
  - unfold bind at 1. unfold bind at 1. unfold get, modify. simpl.
    erewrite bind_ok by (apply (advance_run _ c); by destruct s).
    ok_eq.
  - unfold bind at 1. unfold ret at 1.
    erewrite bind_ok by (apply (advance_run _ c); by destruct s).
    ok_eq.
Qed.

Lemma take_while_length {A} (p : A -> bool) l : length (take_while p l) <= length l.
Proof. induction l as [|x l IH]; simpl; [lia|]. destruct (p x); simpl; lia. Qed.

Lemma sweep_fuel (p : N -> bool) s fuel :
  length (source s) < fuel ->
  length (take_while p (drop (current s) (source s))) < fuel.
Proof.
  intros H. pose proof (take_while_length p (drop (current s) (source s))) as H1.
  rewrite length_drop in H1. lia.
Qed.

Lemma take_while_drop_while {A} (p : A -> bool) l :
  take_while p l ++ drop_while p l = l.
Proof. induction l as [|x l IH]; simpl; [done|]. destruct (p x); simpl; congruence. Qed.

Lemma drop_while_drop {A} (p : A -> bool) l :
  drop_while p l = drop (length (take_while p l)) l.
Proof. induction l as [|x l IH]; simpl; [done|]. destruct (p x); simpl; auto. Qed.

Lemma take_while_Forall {A} (p : A -> bool) l : Forall (fun x => p x = true) (take_while p l).
Proof.
  induction l as [|x l IH]; simpl; [constructor|].
  destruct (p x) eqn:E; constructor; auto.
Qed.

Lemma drop_while_head {A} (p : A -> bool) l x :
  head (drop_while p l) = Some x -> p x = false.
Proof.
  induction l as [|y l IH]; simpl; [discriminate|].
  destruct (p y) eqn:E; simpl; [auto|]. intros [= <-]. done.
Qed.

(** The longest prefix passing [p] is determined by any decomposition into a
    passing prefix and a rest whose first character fails. *)
Lemma take_while_app {A} (p : A -> bool) l1 l2 :
  Forall (fun x => p x = true) l1 ->
  from_option p false (head l2) = false ->
  take_while p (l1 ++ l2) = l1.
Proof.
  intros H1 H2. induction H1 as [|x l1 Hx _ IH]; simpl.
  - destruct l2 as [|y l2]; simpl in *; [done|]. by rewrite H2.
  - rewrite Hx. by rewrite IH.
Qed.

(** *** The comment loop of [scan_token] *)

Lemma comment_run fuel s :
  length (source s) < fuel ->
  while fuel (c <- peek ;; e <- is_at_end ;; ret (negb (c =? NL)%N && negb e))
             (advance ;; ret tt) s =
  Ok (tt, moved (length (take_while not_nl (drop (current s) (source s)))) 0 s).
Proof.
  intros Hf.
  rewrite (while_sweep not_nl (fun _ => 0)).
  - rewrite weigh_zero. reflexivity.
  - apply until_cond_run.
  - apply advance_body_run.
  - by apply sweep_fuel.
Qed.

(** *** [Scanner.string] *)

Lemma string_run fuel s :
  length (source s) < fuel ->
  let body := take_while not_quote (drop (current s) (source s)) in
  let s1 := moved (length body) (count_nl body) s in
  string_ fuel s =
    Ok (tt, if length (source s) <=? current s1 then unterminated s1
            else emitted STRING
                   (Some (LStr (slice (source s) (start s + 1) (current s1))))
                   (moved 1 0 s1)).
Proof.
  intros Hf body s1. unfold string_.
  erewrite bind_ok; cycle 1.
  { apply (while_sweep not_quote nl_weight).
    - apply until_cond_run.
    - apply string_body_run.
    - by apply sweep_fuel. }
  fold body. fold (count_nl body). fold s1.
  rewrite (bind_ok _ _ _ _ _ (is_at_end_run s1)).
  replace (source s1) with (source s) by (by destruct s).
  destruct (length (source s) <=? current s1) eqn:E.
  - reflexivity.
  - assert (is_Some (source s1 !! current s1)) as [c Hc].
    { apply lookup_not_at_end. by replace (source s1) with (source s) by (by destruct s). }
    rewrite (bind_ok _ _ _ _ _ (advance_run s1 c Hc)).
    unfold bind, get, add_token, modify. simpl. ok_eq.
Qed.

(** *** [Scanner.identifier] *)

Lemma is_alpha_numeric_NUL : is_alpha_numeric NUL = false.
Proof. reflexivity. Qed.

Lemma is_digit_NUL : is_digit NUL = false.
Proof. reflexivity. Qed.

Lemma identifier_run fuel s :
  length (source s) < fuel ->
  let k := length (take_while is_alpha_numeric (drop (current s) (source s))) in
  identifier fuel s =
    Ok (tt, emitted (identifier_type (slice (source s) (start s) (current s + k))) None
                    (moved k 0 s)).
Proof.
  intros Hf k. unfold identifier.
  erewrite bind_ok; cycle 1.
  { apply (while_sweep is_alpha_numeric (fun _ => 0)).
    - intros s'. apply peek_cond_run, is_alpha_numeric_NUL.
    - apply advance_body_run.
    - by apply sweep_fuel. }
  rewrite weigh_zero. fold k. reflexivity.
Qed.

(** *** [Scanner.number] *)

Lemma take_while_drop_while_nil {A} (p : A -> bool) l : take_while p (drop_while p l) = [].
Proof.
  induction l as [|x l IH]; simpl; [done|].
  destruct (p x) eqn:E; simpl; [done|]. by rewrite E.
Qed.

Lemma number_run fuel s :
  length (source s) < fuel ->
  let k := length (number_lexeme (drop (current s) (source s))) in
  number fuel s =
    match py_float (slice (source s) (start s) (current s + k)) with
    | Some f => Ok (tt, emitted NUMBER (Some (LNum f)) (moved k 0 s))
    | None => Raise ValueError
    end.
Proof.
  intros Hf k. unfold number.
  set (suffix := drop (current s) (source s)) in *.
  set (k1 := length (take_while is_digit suffix)).
  erewrite bind_ok; cycle 1.
  { apply (while_sweep is_digit (fun _ => 0)).
    - intros s'. apply peek_cond_run, is_digit_NUL.
    - apply advance_body_run.
    - by apply sweep_fuel. }
  rewrite weigh_zero. fold suffix. fold k1.
  set (s1 := moved k1 0 s).
  assert (Hsrc1 : source s1 = source s) by (by destruct s).
  assert (Hcur1 : current s1 = current s + k1) by (by destruct s).
  rewrite (bind_ok _ _ _ _ _ (peek_run s1)).
  rewrite (bind_ok _ _ _ _ _ (peek_next_run s1)).
  rewrite Hsrc1, Hcur1.
  set (rest := drop_while is_digit suffix).
  assert (Hrest : rest = drop (current s + k1) (source s)).
  { unfold rest. rewrite drop_while_drop. fold k1. unfold suffix. by rewrite drop_drop. }
  assert (H0 : source s !! (current s + k1) = rest !! 0).
  { rewrite Hrest, lookup_drop. f_equal; lia. }
  assert (H1 : source s !! (current s + k1 + 1) = rest !! 1).
  { rewrite Hrest, lookup_drop. f_equal; lia. }
  rewrite H0, H1.
  assert (Hk : k = k1 + length (fraction rest)).
  { unfold k, number_lexeme. fold rest. by rewrite length_app. }
  assert (Hnil : take_while is_digit rest = []) by apply take_while_drop_while_nil.
  destruct ((default NUL (rest !! 0%nat) =? ch ".")%N && is_digit (default NUL (rest !! 1%nat))) eqn:Ec.
  - destruct rest as [|c [|c' rest']]; simpl in Ec; try discriminate.
    { by rewrite andb_false_r in Ec. }
    assert (Hadv : source s1 !! current s1 = Some c) by (by rewrite Hsrc1, Hcur1, H0).
    rewrite (bind_ok _ _ _ _ _ (advance_body_run s1 c Hadv)).
    set (s2 := moved 1 0 s1).
    assert (Hdrop2 : drop (current s2) (source s2) = c' :: rest').
    { replace (source s2) with (source s) by (by destruct s).
      replace (current s2) with (S (current s + k1)) by (destruct s; simpl; lia).
      assert (Hc0 : source s !! (current s + k1) = Some c) by (by rewrite H0).
      rewrite (drop_S _ _ _ Hc0) in Hrest. congruence. }
    erewrite bind_ok; cycle 1.
    { apply (while_sweep is_digit (fun _ => 0)).
      - intros s'. apply peek_cond_run, is_digit_NUL.
      - apply advance_body_run.
      - apply sweep_fuel. by replace (source s2) with (source s) by (by destruct s). }
    rewrite weigh_zero, Hdrop2.
    set (k2 := length (take_while is_digit (c' :: rest'))) in *.
    assert (Hk2 : k = k1 + 1 + k2).
    { rewrite Hk. unfold fraction. rewrite Ec. cbn [length]. fold k2. lia. }
    unfold bind, get, float_. simpl.
    replace (current s + k1 + 1 + k2) with (current s + k) by lia.
    destruct (py_float _); [|reflexivity]. unfold ret. rewrite add_token_run. ok_eq.
  - assert (Hfr : fraction rest = []).
    { destruct rest as [|c [|c' rest']]; simpl in *; try done. by rewrite Ec. }
    rewrite Hfr in Hk. simpl in Hk.
    unfold bind at 1. unfold ret at 1.
    erewrite bind_ok; cycle 1.
    { apply (while_sweep is_digit (fun _ => 0)).
      - intros s'. apply peek_cond_run, is_digit_NUL.
      - apply advance_body_run.
      - apply sweep_fuel. by rewrite Hsrc1. }
    rewrite weigh_zero, Hsrc1, Hcur1, <- Hrest, Hnil.
    unfold bind, get, float_. simpl.
    replace (current s + k1 + 0) with (current s + k) by lia.
    destruct (py_float _); [|reflexivity]. unfold ret. rewrite add_token_run. ok_eq.
Qed.

(** *** [float] never fails on what [number] matched *)

Lemma drop_while_app {A} (p : A -> bool) l1 l2 :
  Forall (fun x => p x = true) l1 ->
  from_option p false (head l2) = false ->
  drop_while p (l1 ++ l2) = l2.
Proof.
  intros H1 H2. induction H1 as [|x l1 Hx _ IH]; simpl.
  - destruct l2 as [|y l2]; simpl in *; [done|]. by rewrite H2.
  - by rewrite Hx.
Qed.

Lemma forallb_Forall {A} (p : A -> bool) l :
  Forall (fun x => p x = true) l -> forallb p l = true.
Proof. induction 1 as [|x l Hx _ IH]; simpl; [done|]. by rewrite Hx. Qed.

Lemma py_float_integer ds :
  ds <> [] -> Forall (fun c => is_digit c = true) ds ->
  py_float ds = Some (SF2Prim (round_ratio (digits_val ds) 1)).
Proof.
  intros Hne Hds. unfold py_float.
  pose proof (take_while_app is_digit ds [] Hds eq_refl) as Ht.
  pose proof (drop_while_app is_digit ds [] Hds eq_refl) as Hd.
  rewrite app_nil_r in Ht, Hd. rewrite Ht, Hd.
  destruct ds; [done|reflexivity].
Qed.

Lemma py_float_decimal ds fs :
  ds <> [] -> Forall (fun c => is_digit c = true) ds ->
  Forall (fun c => is_digit c = true) fs ->
  py_float (ds ++ ch "." :: fs) =
    Some (SF2Prim (round_ratio (digits_val (ds ++ fs)) (10 ^ Z.of_nat (length fs)))).
Proof.
  intros Hne Hds Hfs. unfold py_float.
  rewrite (take_while_app is_digit ds (ch "." :: fs) Hds eq_refl).
  rewrite (drop_while_app is_digit ds (ch "." :: fs) Hds eq_refl).
  destruct ds; [done|].
  rewrite N.eqb_refl, (forallb_Forall _ _ Hfs). reflexivity.
Qed.

Lemma fraction_shape rest :
  fraction rest = [] \/
  exists fs, fraction rest = ch "." :: fs /\ fs <> [] /\
             Forall (fun c => is_digit c = true) fs.
Proof.
  destruct rest as [|c [|c' rest']]; simpl; auto.
  destruct ((c =? ch ".")%N && is_digit c') eqn:E; auto.
  apply andb_true_iff in E as [Hc Hc']. apply N.eqb_eq in Hc. subst c.
  right. exists (take_while is_digit (c' :: rest')). split; [done|]. split.
  - simpl. by rewrite Hc'.
  - apply take_while_Forall.
Qed.

Lemma py_float_number_lexeme d l :
  is_digit d = true -> is_Some (py_float (number_lexeme (d :: l))).
Proof.
  intros Hd. unfold number_lexeme.
  set (ds := take_while is_digit (d :: l)).
  assert (Hne : ds <> []) by (unfold ds; simpl; by rewrite Hd).
  assert (Hds : Forall (fun c => is_digit c = true) ds) by apply take_while_Forall.
  destruct (fraction_shape (drop_while is_digit (d :: l))) as [-> | (fs & -> & _ & Hfs)].
  - rewrite app_nil_r, py_float_integer by done. eauto.
  - rewrite py_float_decimal by done. eauto.
Qed.

(** *** Counting newlines *)

Lemma count_nl_app l1 l2 : count_nl (l1 ++ l2) = count_nl l1 + count_nl l2.
Proof. unfold count_nl. induction l1 as [|c l1 IH]; simpl; [done|]. rewrite IH. lia. Qed.

Lemma count_nl_none l : Forall (fun c => c <> NL) l -> count_nl l = 0.
Proof.
  unfold count_nl. induction 1 as [|c l Hc _ IH]; simpl; [done|].
  rewrite IH. unfold nl_weight. apply N.eqb_neq in Hc. by rewrite Hc.
Qed.

Lemma Forall_passing_not_nl (p : N -> bool) l :
  p NL = false -> Forall (fun c => p c = true) l -> Forall (fun c => c <> NL) l.
Proof. intros Hp H. eapply Forall_impl; [exact H|]. intros c Hc ->. congruence. Qed.

Lemma last_not_nl (l : pystr) c : c <> NL -> last (l ++ [c]) <> Some NL.
Proof. intros Hc. rewrite last_snoc. congruence. Qed.

Lemma last_Forall_not_nl (l : pystr) : Forall (fun c => c <> NL) l -> last l <> Some NL.
Proof.
  intros H Hl. apply last_Some in Hl as [l' ->].
  apply Forall_app in H as [_ H]. by inversion H.
Qed.

(** *** Slices and suffixes *)

Lemma slice_prefix (l : pystr) i text rest :
  drop i l = text ++ rest -> slice l i (i + length text) = text.
Proof.
  intros H. unfold slice. rewrite H.
  replace (i + length text - i) with (length text) by lia.
  by rewrite take_app_length.
Qed.

Lemma drop_prefix (l : pystr) i text rest :
  drop i l = text ++ rest -> drop (i + length text) l = rest.
Proof. intros H. by rewrite <- drop_drop, H, drop_app_length. Qed.

Lemma prefix_bound (l : pystr) i text rest :
  i <= length l -> drop i l = text ++ rest -> i + length text <= length l.
Proof.
  intros Hi H. apply (f_equal length) in H. rewrite length_drop, length_app in H. lia.
Qed.

(** ** One iteration of the main loop *)

Lemma iteration_begin fuel s c :
  source s !! current s = Some c ->
  iteration fuel s = dispatch fuel c (begun s).
Proof.
  intros Hc. unfold iteration, scan_token.
  unfold bind at 1. unfold get at 1. unfold bind at 1. unfold modify at 1.
  assert (Hc0 : source (set_start (current s) s) !! current (set_start (current s) s) = Some c)
    by exact Hc.
  rewrite (bind_ok _ _ _ _ _ (advance_run _ c Hc0)). reflexivity.
Qed.

Lemma step_shape_intro s text rest toks errs :
  drop (current s) (source s) = text ++ rest ->
  text <> [] ->
  (errs = [] \/ exists msg, errs = [diagnostic (cur_line s + count_nl text) msg]) ->
  (toks = [] \/
   exists ty lit,
     toks = [mkToken ty text lit (cur_line s + count_nl text)] /\
     ty <> EOF /\ (ty <> STRING -> count_nl text = 0) /\ last text <> Some NL) ->
  step_shape s text toks errs.
Proof.
  intros Hd Hne He Ht. constructor; auto.
  rewrite (drop_prefix _ _ _ _ Hd). exact Hd.
Qed.

(** The state after emitting one token whose lexeme is the consumed text. *)
Lemma emitted_after s s1 text rest ty lit :
  drop (current s) (source s) = text ++ rest ->
  source s1 = source s -> tokens s1 = tokens s -> start s1 = current s ->
  current s1 = current s + length text ->
  cur_line s1 = cur_line s + count_nl text -> errors s1 = errors s ->
  emitted ty lit s1 =
    after s text [mkToken ty text lit (cur_line s + count_nl text)] [].
Proof.
  intros Hd H1 H2 H3 H4 H5 H6. unfold emitted, after, set_tokens.
  rewrite H1, H2, H3, H4, H5, H6, app_nil_r, (slice_prefix _ _ _ _ Hd). reflexivity.
Qed.

(** The state after consuming text silently. *)
Lemma silent_after s s1 text :
  source s1 = source s -> tokens s1 = tokens s -> start s1 = current s ->
  current s1 = current s + length text ->
  cur_line s1 = cur_line s + count_nl text -> errors s1 = errors s ->
  s1 = after s text [] [].
Proof.
  intros H1 H2 H3 H4 H5 H6. unfold after.
  rewrite <- H4, <- H5, <- H1, <- H2, <- H3, <- H6, !app_nil_r. by destruct s1.
Qed.

Lemma single_not_nl (c : char) : c <> NL -> count_nl [c] = 0.
Proof. intros H. apply count_nl_none. by constructor. Qed.

Ltac field_eq :=
  repeat match goal with x := _ : Scanner |- _ => subst x end;
  repeat match goal with s : Scanner |- _ => destruct s end;
  simpl in *; rewrite ?length_app; simpl; first [reflexivity | lia | (f_equal; lia)].

(** *** Branches that emit a token of one or two characters *)

Lemma single_token_step s c ty :
  source s !! current s = Some c -> c <> NL ->
  add_token ty None (begun s) =
    Ok (tt, after s [c] [mkToken ty [c] None (cur_line s + count_nl [c])] []).
Proof.
  intros Hc Hnl. apply single_not_nl in Hnl.
  rewrite add_token_run. apply Ok_state.
  apply (emitted_after s _ [c] (drop (S (current s)) (source s)));
    [by apply drop_S | field_eq ..].
Qed.

Lemma drop_two (l : pystr) i c c' :
  l !! i = Some c -> l !! (i + 1) = Some c' -> drop i l = [c; c'] ++ drop (i + 2) l.
Proof.
  intros H1 H2. rewrite (drop_S _ _ _ H1).
  replace (i + 1) with (S i) in H2 by lia. rewrite (drop_S _ _ _ H2).
  by replace (i + 2) with (S (S i)) by lia.
Qed.

Lemma operator_step s c x ty2 ty1 :
  source s !! current s = Some c -> c <> NL -> x <> NL ->
  (b <- match_ x ;; if b then add_token ty2 None else add_token ty1 None) (begun s) =
    Ok (tt, if bool_decide (source s !! (current s + 1) = Some x)
            then after s [c; x] [mkToken ty2 [c; x] None (cur_line s + count_nl [c; x])] []
            else after s [c] [mkToken ty1 [c] None (cur_line s + count_nl [c])] []).
Proof.
  intros Hc Hnl Hx. unfold bind. rewrite match_run.
  replace (source (begun s) !! current (begun s)) with (source s !! (current s + 1))
    by (by destruct s).
  case_bool_decide as Hm.
  - assert (Hnl2 : count_nl [c; x] = 0) by (apply count_nl_none; by repeat constructor).
    rewrite add_token_run. apply Ok_state.
    apply (emitted_after s _ [c; x] (drop (current s + 2) (source s)));
      [by apply drop_two | field_eq ..].
  - by apply single_token_step.
Qed.

(** *** The slash branch: a comment up to the end of the line, or SLASH *)

Lemma count_nl_take_while_not_nl l : count_nl (take_while not_nl l) = 0.
Proof.
  apply count_nl_none.
  eapply Forall_impl; [apply (take_while_Forall not_nl)|].
  intros c Hc ->. discriminate.
Qed.

Lemma slash_step fuel s c :
  length (source s) < fuel ->
  source s !! current s = Some c -> c = ch "/" ->
  (b <- match_ (ch "/") ;;
   if b then
     while fuel (c <- peek ;; e <- is_at_end ;; ret (negb (c =? NL)%N && negb e))
                (advance ;; ret tt)
   else add_token SLASH None) (begun s) =
    Ok (tt, if bool_decide (source s !! (current s + 1) = Some (ch "/"))
            then after s (c :: ch "/" :: take_while not_nl (drop (current s + 2) (source s)))
                       [] []
            else after s [c] [mkToken SLASH [c] None (cur_line s + count_nl [c])] []).
Proof.
  intros Hf Hc Hsl. unfold bind. rewrite match_run.
  replace (source (begun s) !! current (begun s)) with (source s !! (current s + 1))
    by (by destruct s).
  case_bool_decide as Hm.
  - rewrite comment_run by (by destruct s).
    replace (drop _ (source (set_current (current (begun s) + 1) (begun s))))
      with (drop (current s + 2) (source s)) by (destruct s; simpl; f_equal; lia).
    apply Ok_state.
    set (run := take_while not_nl (drop (current s + 2) (source s))).
    assert (Hnl : count_nl (c :: ch "/" :: run) = 0).
    { change (count_nl ([c; ch "/"] ++ run) = 0). rewrite count_nl_app.
      unfold run. rewrite count_nl_take_while_not_nl. by subst c. }
    apply silent_after; field_eq.
  - apply single_token_step; [done|]. by subst c.
Qed.

(** *** Whitespace, newline and unexpected characters *)

Lemma whitespace_step s c :
  source s !! current s = Some c -> c <> NL ->
  begun s = after s [c] [] [].
Proof.
  intros Hc Hnl. apply single_not_nl in Hnl. apply silent_after; field_eq.
Qed.

Lemma newline_step s :
  source s !! current s = Some NL ->
  (ln <- get cur_line ;; modify (set_line (ln + 1))) (begun s) =
    Ok (tt, after s [NL] [] []).
Proof.
  intros Hc. unfold bind, get, modify. apply Ok_state.
  apply silent_after; field_eq.
Qed.

Lemma error_after s s1 text msg :
  source s1 = source s -> tokens s1 = tokens s -> start s1 = current s ->
  current s1 = current s + length text ->
  cur_line s1 = cur_line s + count_nl text -> errors s1 = errors s ->
  set_errors (errors s1 ++ [diagnostic (cur_line s1) msg]) s1 =
    after s text [] [diagnostic (cur_line s + count_nl text) msg].
Proof.
  intros H1 H2 H3 H4 H5 H6. unfold set_errors, after.
  by rewrite H1, H2, H3, H4, H5, H6, app_nil_r.
Qed.

Lemma unexpected_step s c :
  source s !! current s = Some c -> c <> NL ->
  error (pystr_of "Unexpected character: " ++ [c]) (begun s) =
    Ok (tt, after s [c] []
              [diagnostic (cur_line s + count_nl [c])
                          (pystr_of "Unexpected character: " ++ [c])]).
Proof.
  intros Hc Hnl. apply single_not_nl in Hnl. rewrite error_run. apply Ok_state.
  apply error_after; field_eq.
Qed.

(** *** The string branch *)

Lemma not_quote_false c : not_quote c = false -> c = QUOTE.
Proof. unfold not_quote. intros H. apply negb_false_iff in H. by apply N.eqb_eq. Qed.

Lemma split_at_quote l :
  (drop_while not_quote l = [] /\ l = take_while not_quote l) \/
  exists rest, drop_while not_quote l = QUOTE :: rest /\
               l = take_while not_quote l ++ QUOTE :: rest.
Proof.
  pose proof (take_while_drop_while not_quote l) as H.
  destruct (drop_while not_quote l) as [|q rest] eqn:E.
  - left. rewrite app_nil_r in H. auto.
  - right. exists rest.
    assert (q = QUOTE) as -> by (apply not_quote_false, (drop_while_head _ l); by rewrite E).
    auto.
Qed.

Lemma string_step fuel s c :
  length (source s) < fuel ->
  source s !! current s = Some c -> c = QUOTE ->
  let body := take_while not_quote (drop (current s + 1) (source s)) in
  string_ fuel (begun s) =
    Ok (tt, if length (source s) <=? current s + 1 + length body
            then after s (c :: body) []
                   [diagnostic (cur_line s + count_nl (c :: body))
                               (pystr_of "Unterminated string.")]
            else after s (c :: body ++ [QUOTE])
                   [mkToken STRING (c :: body ++ [QUOTE]) (Some (LStr body))
                            (cur_line s + count_nl (c :: body ++ [QUOTE]))] []).
Proof.
  intros Hf Hc Hq body.
  rewrite string_run by (by destruct s).
  replace (drop (current (begun s)) (source (begun s)))
    with (drop (current s + 1) (source s)) by (by destruct s).
  fold body. apply Ok_state.
  set (s1 := moved (length body) (count_nl body) (begun s)).
  replace (source (begun s)) with (source s) by (by destruct s).
  replace (current s1) with (current s + 1 + length body) by (by destruct s).
  assert (Hnl1 : count_nl (c :: body) = count_nl body).
  { change (count_nl ([c] ++ body) = count_nl body). rewrite count_nl_app.
    rewrite single_not_nl; [done | by subst c]. }
  assert (Hnl2 : count_nl (c :: body ++ [QUOTE]) = count_nl body).
  { change (count_nl ((c :: body) ++ [QUOTE]) = count_nl body).
    by rewrite count_nl_app, Hnl1, single_not_nl, Nat.add_0_r. }
  destruct (length (source s) <=? current s + 1 + length body) eqn:E.
  - apply error_after; field_eq.
  - apply Nat.leb_gt in E.
    pose proof (drop_S _ _ _ Hc) as Hd. replace (S (current s)) with (current s + 1) in Hd by lia.
    destruct (split_at_quote (drop (current s + 1) (source s))) as [[_ H]|(rest & _ & H)];
      fold body in H.
    { apply (f_equal length) in H. rewrite length_drop in H. lia. }
    assert (Hd' : drop (current s) (source s) = (c :: body ++ [QUOTE]) ++ rest).
    { rewrite Hd, H. simpl. by rewrite <- app_assoc. }
    replace (slice (source s) (start (begun s) + 1) (current s + 1 + length body)) with body.
    2:{ symmetry. replace (start (begun s)) with (current s) by (by destruct s).
        apply (slice_prefix _ _ _ (QUOTE :: rest)). exact H. }
    apply (emitted_after s _ _ rest); [exact Hd' | field_eq ..].
Qed.

(** *** The number branch *)

Lemma fraction_prefix rest : exists rest', rest = fraction rest ++ rest'.
Proof.
  destruct rest as [|c [|c' rest']]; [by exists [] | by exists [c] |].
  unfold fraction. destruct ((c =? ch ".")%N && is_digit c').
  - exists (drop_while is_digit (c' :: rest')).
    by rewrite <- app_comm_cons, (take_while_drop_while is_digit (c' :: rest')).
  - by exists (c :: c' :: rest').
Qed.

Lemma number_lexeme_prefix l : exists rest, l = number_lexeme l ++ rest.
Proof.
  destruct (fraction_prefix (drop_while is_digit l)) as [rest Hr].
  exists rest. unfold number_lexeme. rewrite <- app_assoc, <- Hr.
  by rewrite take_while_drop_while.
Qed.

Lemma number_lexeme_cons d l :
  is_digit d = true -> number_lexeme (d :: l) = d :: number_lexeme l.
Proof. intros Hd. unfold number_lexeme. simpl. by rewrite Hd. Qed.

Lemma is_digit_not_nl c : is_digit c = true -> c <> NL.
Proof. intros H ->. discriminate. Qed.

Lemma number_lexeme_no_nl l : Forall (fun c => c <> NL) (number_lexeme l).
Proof.
  unfold number_lexeme. apply Forall_app. split.
  - apply (Forall_passing_not_nl is_digit); [done | apply take_while_Forall].
  - destruct (fraction_shape (drop_while is_digit l)) as [-> | (fs & -> & _ & Hfs)].
    + constructor.
    + constructor; [discriminate|].
      by apply (Forall_passing_not_nl is_digit).
Qed.

Lemma number_step fuel s c :
  length (source s) < fuel ->
  source s !! current s = Some c -> is_digit c = true ->
  let text := number_lexeme (drop (current s) (source s)) in
  exists f,
    py_float text = Some f /\
    number fuel (begun s) =
      Ok (tt, after s text
                [mkToken NUMBER text (Some (LNum f)) (cur_line s + count_nl text)] []).
Proof.
  intros Hf Hc Hd text.
  pose proof (drop_S _ _ _ Hc) as Hdrop.
  replace (S (current s)) with (current s + 1) in Hdrop by lia.
  assert (Htext : text = c :: number_lexeme (drop (current s + 1) (source s))).
  { unfold text. rewrite Hdrop. by apply number_lexeme_cons. }
  destruct (py_float_number_lexeme c (drop (current s + 1) (source s)) Hd) as [f Hfl].
  rewrite <- Hdrop in Hfl. fold text in Hfl.
  destruct (number_lexeme_prefix (drop (current s) (source s))) as [rest Hrest].
  fold text in Hrest.
  assert (Hnl : count_nl text = 0) by apply count_nl_none, number_lexeme_no_nl.
  exists f. split; [exact Hfl|].
  rewrite number_run by (by destruct s).
  replace (drop (current (begun s)) (source (begun s)))
    with (drop (current s + 1) (source s)) by (by destruct s).
  set (k := length (number_lexeme (drop (current s + 1) (source s)))).
  assert (Hlen : length text = 1 + k) by (by rewrite Htext).
  replace (slice (source (begun s)) (start (begun s)) (current (begun s) + k)) with text.
  2:{ symmetry. replace (source (begun s)) with (source s) by (by destruct s).
      replace (start (begun s)) with (current s) by (by destruct s).
      replace (current (begun s) + k) with (current s + length text)
        by (destruct s; simpl in *; lia).
      by apply (slice_prefix _ _ _ rest). }
  rewrite Hfl. apply Ok_state.
  apply (emitted_after s _ _ rest); [exact Hrest | field_eq ..].
Qed.

(** *** The identifier branch *)

Lemma is_alpha_numeric_not_nl c : is_alpha_numeric c = true -> c <> NL.
Proof. intros H ->. discriminate. Qed.

Lemma identifier_step fuel s c :
  length (source s) < fuel ->
  source s !! current s = Some c -> is_alpha_numeric c = true ->
  let text := take_while is_alpha_numeric (drop (current s) (source s)) in
  identifier fuel (begun s) =
    Ok (tt, after s text
              [mkToken (identifier_type text) text None (cur_line s + count_nl text)] []).
Proof.
  intros Hf Hc Ha text.
  pose proof (drop_S _ _ _ Hc) as Hdrop.
  replace (S (current s)) with (current s + 1) in Hdrop by lia.
  assert (Htext : text = c :: take_while is_alpha_numeric (drop (current s + 1) (source s))).
  { unfold text. rewrite Hdrop. simpl. by rewrite Ha. }
  pose proof (take_while_drop_while is_alpha_numeric (drop (current s) (source s))) as Hrest.
  fold text in Hrest. symmetry in Hrest.
  assert (Hnl : count_nl text = 0).
  { apply count_nl_none, (Forall_passing_not_nl is_alpha_numeric); [done|].
    apply take_while_Forall. }
  rewrite identifier_run by (by destruct s).
  replace (drop (current (begun s)) (source (begun s)))
    with (drop (current s + 1) (source s)) by (by destruct s).
  set (k := length (take_while is_alpha_numeric (drop (current s + 1) (source s)))).
  assert (Hlen : length text = 1 + k) by (by rewrite Htext).
  replace (slice (source (begun s)) (start (begun s)) (current (begun s) + k)) with text.
  2:{ symmetry. replace (source (begun s)) with (source s) by (by destruct s).
      replace (start (begun s)) with (current s) by (by destruct s).
      replace (current (begun s) + k) with (current s + length text)
        by (destruct s; simpl in *; lia).
      by apply (slice_prefix _ _ _ (drop_while is_alpha_numeric (drop (current s) (source s)))). }
  apply Ok_state.
  apply (emitted_after s _ _ (drop_while is_alpha_numeric (drop (current s) (source s))));
    [exact Hrest | field_eq ..].
Qed.

(** *** Reserved words *)

Lemma reserved_lookup text ty :
  reserved_words !! text = Some ty <-> (text, ty) ∈ reserved_table.
Proof.
  unfold reserved_words. symmetry. apply elem_of_list_to_map.
  apply (bool_decide_unpack _). by vm_compute.
Qed.

Lemma identifier_type_not_EOF text : identifier_type text <> EOF.
Proof.
  unfold identifier_type.
  destruct (reserved_words !! text) as [ty|] eqn:E; simpl; [|done].
  apply reserved_lookup in E. unfold reserved_table in E.
  repeat (apply elem_of_cons in E as [[= _ ->]|E]; [done|]).
  by apply elem_of_nil in E.
Qed.

(** *** Every iteration succeeds and has the expected shape *)

Lemma shape_token s text rest ty lit :
  drop (current s) (source s) = text ++ rest ->
  text <> [] -> Forall (fun c => c <> NL) text -> ty <> EOF ->
  step_shape s text [mkToken ty text lit (cur_line s + count_nl text)] [].
Proof.
  intros Hd Hne Hnl Hty. apply (step_shape_intro _ _ rest); auto.
  right. exists ty, lit. repeat split; auto.
  - intros _. by apply count_nl_none.
  - by apply last_Forall_not_nl.
Qed.

Lemma shape_silent s text rest :
  drop (current s) (source s) = text ++ rest -> text <> [] ->
  step_shape s text [] [].
Proof. intros Hd Hne. apply (step_shape_intro _ _ rest); auto. Qed.

Lemma shape_error s text rest msg :
  drop (current s) (source s) = text ++ rest -> text <> [] ->
  step_shape s text [] [diagnostic (cur_line s + count_nl text) msg].
Proof. intros Hd Hne. apply (step_shape_intro _ _ rest); eauto. Qed.

Ltac punctuation Hc Hdrop :=
  eexists _, _, _; split;
  [ apply single_token_step; [exact Hc | intros ?; subst; discriminate]
  | eapply shape_token;
    [ exact Hdrop | done | repeat constructor; intros ?; subst; discriminate | done ] ].

Ltac operator Hc Hdrop :=
  let Hm := fresh "Hm" in
  match type of Hc with
  | _ = Some ?c =>
      rewrite (operator_step _ c) by (first [exact Hc | intros ?; subst; discriminate])
  end;
  case_bool_decide as Hm;
  [ eexists _, _, _; split; [reflexivity|];
    eapply shape_token;
    [ exact (drop_two _ _ _ _ Hc Hm) | done
    | repeat constructor; intros ?; subst; discriminate | done ]
  | eexists _, _, _; split; [reflexivity|];
    eapply shape_token;
    [ exact Hdrop | done | repeat constructor; intros ?; subst; discriminate | done ] ].

Lemma string_text (l : pystr) i c :
  l !! i = Some c ->
  let body := take_while not_quote (drop (i + 1) l) in
  if length l <=? i + 1 + length body
  then drop i l = (c :: body) ++ []
  else exists rest, drop i l = (c :: body ++ [QUOTE]) ++ rest.
Proof.
  intros Hc body. pose proof (drop_S _ _ _ Hc) as Hd.
  replace (S i) with (i + 1) in Hd by lia.
  destruct (split_at_quote (drop (i + 1) l)) as [[_ H]|(rest & _ & H)]; fold body in H.
  - assert (length l <= i + 1 + length body).
    { apply (f_equal length) in H. rewrite length_drop in H. lia. }
    rewrite (leb_correct _ _ H0). by rewrite app_nil_r, Hd, H.
  - assert (i + 1 + length body < length l).
    { apply (f_equal length) in H. rewrite length_drop, length_app in H. simpl in H. lia. }
    rewrite (leb_correct_conv _ _ H0). exists rest.
    rewrite Hd, H. simpl. by rewrite <- app_assoc.
Qed.

Lemma iteration_step fuel s :
  length (source s) < fuel ->
  current s < length (source s) ->
  exists text toks errs,
    iteration fuel s = Ok (tt, after s text toks errs) /\ step_shape s text toks errs.
Proof.
  intros Hf Hlt.
  destruct (lookup_lt_is_Some_2 _ _ Hlt) as [c Hc].
  rewrite (iteration_begin _ _ _ Hc).
  assert (Hdrop : drop (current s) (source s) = [c] ++ drop (S (current s)) (source s))
    by (by apply drop_S).
  unfold dispatch.
  destruct (N.eqb_spec c (ch "(")); [punctuation Hc Hdrop|].
  destruct (N.eqb_spec c (ch ")")); [punctuation Hc Hdrop|].
  destruct (N.eqb_spec c (ch "{")); [punctuation Hc Hdrop|].
  destruct (N.eqb_spec c (ch "}")); [punctuation Hc Hdrop|].
  destruct (N.eqb_spec c (ch "*")); [punctuation Hc Hdrop|].
  destruct (N.eqb_spec c (ch ".")); [punctuation Hc Hdrop|].
  destruct (N.eqb_spec c (ch ",")); [punctuation Hc Hdrop|].
  destruct (N.eqb_spec c (ch "+")); [punctuation Hc Hdrop|].
  destruct (N.eqb_spec c (ch "-")); [punctuation Hc Hdrop|].
  destruct (N.eqb_spec c (ch ";")); [punctuation Hc Hdrop|].
  destruct (N.eqb_spec c (ch "!")); [operator Hc Hdrop|].
  destruct (N.eqb_spec c (ch "=")); [operator Hc Hdrop|].
  destruct (N.eqb_spec c (ch "<")); [operator Hc Hdrop|].
  destruct (N.eqb_spec c (ch ">")); [operator Hc Hdrop|].
  destruct (N.eqb_spec c (ch "/")) as [Esl|_].
  { rewrite (slash_step fuel s c Hf Hc Esl). case_bool_decide as Hm.
    - eexists _, _, _; split; [reflexivity|].
      eapply (shape_silent _ _ (drop_while not_nl (drop (current s + 2) (source s)))); [|done].
      rewrite (drop_two _ _ _ _ Hc Hm). simpl.
      by rewrite take_while_drop_while.
    - eexists _, _, _; split; [reflexivity|].
      eapply shape_token;
        [exact Hdrop | done | repeat constructor; intros ?; subst; discriminate | done]. }
  destruct ((c =? ch " ")%N || (c =? CR)%N || (c =? TAB)%N) eqn:Ews.
  { assert (c <> NL) by (intros ->; discriminate).
    exists [c], [], []. split.
    - unfold ret. apply Ok_state. by apply whitespace_step.
    - by eapply shape_silent. }
  destruct (N.eqb_spec c NL) as [->|Hnl].
  { exists [NL], [], []. split; [by apply newline_step | by eapply shape_silent]. }
  destruct (N.eqb_spec c QUOTE) as [Eq|_].
  { rewrite (string_step fuel s c Hf Hc Eq).
    pose proof (string_text _ _ _ Hc) as Htext. simpl in Htext.
    destruct (length (source s) <=? current s + 1 + length _).
    - eexists _, _, _; split; [reflexivity|]. by eapply shape_error.
    - destruct Htext as [rest Htext].
      eexists _, _, _; split; [reflexivity|].
      apply (step_shape_intro _ _ rest); [exact Htext | done | by left |].
      right. eexists _, _. split; [reflexivity|]. split; [done|]. split; [done|].
      change (last ((c :: take_while not_quote (drop (current s + 1) (source s))) ++ [QUOTE])
              <> Some NL).
      by apply last_not_nl. }
  destruct (is_digit c) eqn:Ed.
  { destruct (number_step fuel s c Hf Hc Ed) as (f & _ & ->).
    destruct (number_lexeme_prefix (drop (current s) (source s))) as [rest Hrest].
    eexists _, _, _; split; [reflexivity|].
    eapply shape_token; [exact Hrest | | apply number_lexeme_no_nl | done].
    rewrite Hdrop. cbn [app]. rewrite number_lexeme_cons by done. done. }
  destruct (is_alpha_numeric c) eqn:Ea.
  { rewrite (identifier_step fuel s c Hf Hc Ea).
    eexists _, _, _; split; [reflexivity|].
    eapply shape_token.
    - symmetry. apply (take_while_drop_while is_alpha_numeric).
    - rewrite Hdrop. simpl. by rewrite Ea.
    - apply (Forall_passing_not_nl is_alpha_numeric); [done | apply take_while_Forall].
    - apply identifier_type_not_EOF. }
  rewrite (unexpected_step s c Hc Hnl).
  eexists _, _, _; split; [reflexivity|]. by eapply shape_error.
Qed.

(** ** The main loop *)

Lemma at_end_cond_run s :
  (e <- is_at_end ;; ret (negb e)) s = Ok (negb (length (source s) <=? current s), s).
Proof. reflexivity. Qed.

Lemma main_loop fuel n : forall s,
  length (source s) < fuel ->
  length (source s) - current s < n ->
  exists s',
    while n (e <- is_at_end ;; ret (negb e)) (iteration fuel) s = Ok (tt, s') /\
    run_to s s'.
Proof.
  induction n as [|n IH]; intros s Hf Hn; [lia|].
  simpl. rewrite (bind_ok _ _ _ _ _ (at_end_cond_run s)).
  destruct (length (source s) <=? current s) eqn:E; simpl.
  - apply Nat.leb_le in E. exists s. split; [reflexivity | by constructor].
  - apply Nat.leb_gt in E.
    destruct (iteration_step fuel s Hf E) as (text & toks & errs & Hrun & Hshape).
    rewrite (bind_ok _ _ _ _ _ Hrun).
    assert (Hlen : length text <> 0).
    { destruct text; [by destruct Hshape | simpl; lia]. }
    destruct (IH (after s text toks errs)) as (s' & Hw & Hr); [done | simpl; lia |].
    exists s'. split; [exact Hw|]. by eapply run_step.
Qed.

Lemma scan_tokens_run fuel s :
  length (source s) < fuel ->
  exists s',
    run_to s s' /\
    scan_tokens fuel s =
      Ok ((tokens s' ++ [mkToken EOF [] None (cur_line s')], errors s'),
          set_tokens (tokens s' ++ [mkToken EOF [] None (cur_line s')]) s').
Proof.
  intros Hf. unfold scan_tokens.
  destruct (main_loop fuel fuel s Hf) as (s' & Hw & Hr); [lia|].
  exists s'. split; [exact Hr|].
  change (cur <- get current ;; modify (set_start cur) ;; scan_token fuel)
    with (iteration fuel).
  rewrite (bind_ok _ _ _ _ _ Hw). reflexivity.
Qed.

Lemma step_text_bound s text toks errs :
  current s <= length (source s) -> step_shape s text toks errs ->
  current s + length text <= length (source s).
Proof. intros Hle [Ht _ _ _]. by eapply prefix_bound. Qed.

Lemma run_source s s' : run_to s s' -> source s' = source s.
Proof. induction 1 as [|s text toks errs s' _ _ _ IH]; [done|]. by rewrite IH. Qed.

Lemma run_current s s' :
  run_to s s' -> current s <= length (source s) -> current s' = length (source s).
Proof.
  induction 1 as [s Hge|s text toks errs s' Hlt Hshape _ IH]; intros Hle; [lia|].
  apply IH. simpl. eapply step_text_bound; eauto.
Qed.

Lemma run_line s s' :
  run_to s s' ->
  cur_line s' = cur_line s + count_nl (drop (current s) (source s)).
Proof.
  induction 1 as [s Hge|s text toks errs s' Hlt Hshape _ IH].
  - rewrite drop_ge by done. simpl. unfold count_nl. simpl. lia.
  - rewrite IH. simpl. destruct Hshape as [Ht _ _ _].
    rewrite Ht, count_nl_app. lia.
Qed.

Lemma line_of_advance (src : pystr) i text rest :
  drop i src = text ++ rest ->
  line_of src (i + length text) = line_of src i + count_nl text.
Proof.
  intros H. unfold line_of.
  assert (take (i + length text) src = take i src ++ text) as ->.
  { rewrite <- (take_drop i src) at 1. rewrite H.
    destruct (decide (i <= length src)) as [Hi|Hi].
    - rewrite <- (length_take_le src i) at 1 by done.
      by rewrite take_app_add, take_app_length.
    - rewrite drop_ge in H by lia. symmetry in H. apply app_eq_nil in H as [-> ->].
      simpl. rewrite Nat.add_0_r, app_nil_r, take_take. f_equal. lia. }
  rewrite count_nl_app. lia.
Qed.

(** ** A larger iteration budget changes nothing *)

Lemma refines_refl {A} (a : M A) : refines a a.
Proof. by intros s r. Qed.

Lemma refines_bind {A B} (a a' : M A) (k k' : A -> M B) :
  refines a a' -> (forall x, refines (k x) (k' x)) -> refines (bind a k) (bind a' k').
Proof.
  intros Ha Hk s r H. apply bind_inv in H as (x & s1 & H1 & H2).
  rewrite (bind_ok _ _ _ _ _ (Ha _ _ H1)). by apply Hk.
Qed.

Lemma refines_while n m cond body body' :
  n <= m -> refines body body' -> refines (while n cond body) (while m cond body').
Proof.
  intros Hnm Hb. revert m Hnm. induction n as [|n IH]; intros m Hnm s r; [discriminate|].
  destruct m as [|m]; [lia|]. simpl.
  apply refines_bind; [apply refines_refl|]. intros [|]; [|apply refines_refl].
  apply refines_bind; [exact Hb|]. intros _. apply IH. lia.
Qed.

Ltac refine_step :=
  first
    [ apply refines_refl
    | apply refines_while; [assumption|]
    | apply refines_bind; [|intros ?]
    | match goal with |- refines (if ?b then _ else _) _ => destruct b end ].

Lemma string_mono n m : n <= m -> refines (string_ n) (string_ m).
Proof. intros H. unfold string_. repeat refine_step. Qed.

Lemma number_mono n m : n <= m -> refines (number n) (number m).
Proof. intros H. unfold number. repeat refine_step. Qed.

Lemma identifier_mono n m : n <= m -> refines (identifier n) (identifier m).
Proof. intros H. unfold identifier. repeat refine_step. Qed.

Lemma dispatch_mono n m c : n <= m -> refines (dispatch n c) (dispatch m c).
Proof.
  intros H. unfold dispatch.
  repeat first
    [ apply string_mono; assumption
    | apply number_mono; assumption
    | apply identifier_mono; assumption
    | refine_step ].
Qed.

Lemma scan_tokens_mono n m : n <= m -> refines (scan_tokens n) (scan_tokens m).
Proof.
  intros H. unfold scan_tokens, scan_token.
  apply refines_bind; [|intros ?; apply refines_refl].
  apply refines_while; [done|].
  do 2 (apply refines_bind; [apply refines_refl | intros ?]).
  apply refines_bind; [apply refines_refl | intros c]. by apply dispatch_mono.
Qed.

Lemma scan_with_mono n m src r :
  n <= m -> scan_with n src = Ok r -> scan_with m src = Ok r.
Proof.
  intros H. unfold scan_with.
  destruct (scan_tokens n (Scanner_init src)) as [[r' s']| |] eqn:E; try discriminate.
  intros [= ->]. by rewrite (scan_tokens_mono n m H _ _ E).
Qed.

(** ** Tokens appended by the main loop *)

Lemma run_tokens s s' :
  run_to s s' ->
  exists new,
    tokens s' = tokens s ++ new /\
    Forall (fun t => type t <> EOF) new /\
    StronglySorted line_le new /\
    Forall (fun t => cur_line s <= line t <= cur_line s') new.
Proof.
  induction 1 as [s Hge|s text toks errs s' Hlt Hshape Hrun IH].
  - exists []. rewrite app_nil_r. repeat split; constructor.
  - destruct IH as (new & Htok & Hty & Hsorted & Hlines).
    pose proof (run_line _ _ Hrun) as Hline. simpl in *.
    destruct Hshape as [_ _ _ [->|(ty & lit & -> & Hne & _)]].
    + exists new. rewrite app_nil_r in Htok. repeat split; auto.
      eapply Forall_impl; [exact Hlines|]. simpl. lia.
    + set (t := mkToken ty text lit (cur_line s + count_nl text)) in *.
      exists (t :: new). rewrite <- app_assoc in Htok. repeat split; auto.
      * constructor; [exact Hsorted|].
        eapply Forall_impl; [exact Hlines|]. unfold line_le. simpl. lia.
      * constructor; [simpl; lia|].
        eapply Forall_impl; [exact Hlines|]. simpl. lia.
Qed.

Lemma run_errors s s' : run_to s s' -> exists new, errors s' = errors s ++ new.
Proof.
  induction 1 as [s Hge|s text toks errs s' _ _ _ [new IH]].
  - exists []. by rewrite app_nil_r.
  - exists (errs ++ new). simpl in IH. by rewrite IH, app_assoc.
Qed.

Lemma StronglySorted_lookup {A} (R : A -> A -> Prop) (l : list A) i j x y :
  StronglySorted R l -> i < j -> l !! i = Some x -> l !! j = Some y -> R x y.
Proof.
  intros Hs. revert i j. induction Hs as [|a l Hs IH Hall]; intros i j Hij Hi Hj.
  - by rewrite lookup_nil in Hi.
  - destruct j as [|j]; [lia|]. destruct i as [|i]; simpl in *.
    + injection Hi as ->. rewrite Forall_forall in Hall. apply Hall.
      by eapply list_elem_of_lookup_2.
    + eapply (IH i j); [lia|done..].
Qed.

(** The whole scan, from the initial state. *)
Lemma scan_run src :
  exists sf,
    run_to (Scanner_init src) sf /\
    (forall fuel, length src < fuel ->
       scan_tokens fuel (Scanner_init src) =
         Ok ((tokens sf ++ [mkToken EOF [] None (cur_line sf)], errors sf),
             set_tokens (tokens sf ++ [mkToken EOF [] None (cur_line sf)]) sf)).
Proof.
  destruct (scan_tokens_run (S (length src)) (Scanner_init src)) as (sf & Hr & Hs);
    [simpl; lia|].
  exists sf. split; [exact Hr|]. intros fuel Hf.
  apply (scan_tokens_mono (S (length src)) fuel); [lia | exact Hs].
Qed.

(** * The claims *)

(** C2.  For every source text the scan returns a pair of tokens and
    diagnostics: it raises no exception and does not run out of iterations.
    The cursor of the final state is at the end of the source (nothing stopped
    the pass early), and every iteration budget above the length of the source
    gives the same pair. *)
Theorem scan_tokens_total (src : pystr) :
  exists toks errs sf,
    scan_tokens (S (length src)) (Scanner_init src) = Ok ((toks, errs), sf) /\
    tokens sf = toks /\ errors sf = errs /\
    current sf = length src /\
    scan src = Ok (toks, errs) /\
    forall fuel, length src < fuel -> scan_with fuel src = Ok (toks, errs).
Proof.
  destruct (scan_run src) as (sf & Hrun & Hscan).
  eexists _, _, _. split; [apply Hscan; lia|].
  split; [reflexivity|]. split; [reflexivity|]. split.
  - simpl. by apply (run_current _ _ Hrun); simpl; lia.
  - split.
    + unfold scan, scan_with. by rewrite Hscan by lia.
    + intros fuel Hf. unfold scan_with. by rewrite Hscan by lia.
Qed.

Lemma scan_tokens_total_witness :
  exists toks errs,
    scan (pystr_of "a @") = Ok (toks, errs) /\
    scan_with 10 (pystr_of "a @") = Ok (toks, errs).
Proof.
  destruct (scan_tokens_total (pystr_of "a @")) as (toks & errs & sf & _ & _ & _ & _ & H1 & H2).
  exists toks, errs. split; [exact H1|]. apply H2. simpl. lia.
Defined.

(** C3.  The token sequence is the tokens of the source followed by one EOF
    token with empty lexeme, no literal and the final value of the line
    counter as line; no other token is an EOF token.  The final line counter is
    one more than the number of newlines of the source.  The empty source gives
    that single EOF token, on line 1, and no diagnostic. *)
Theorem scan_ends_with_one_EOF (src : pystr) :
  (exists body errs sf,
     scan_tokens (S (length src)) (Scanner_init src) =
       Ok ((body ++ [mkToken EOF [] None (cur_line sf)], errs), sf) /\
     scan src = Ok (body ++ [mkToken EOF [] None (cur_line sf)], errs) /\
     Forall (fun t => type t <> EOF) body /\
     cur_line sf = 1 + count_nl src) /\
  scan [] = Ok ([mkToken EOF [] None 1], []).
Proof.
  split; [|reflexivity].
  destruct (scan_run src) as (sf & Hrun & Hscan).
  destruct (run_tokens _ _ Hrun) as (body & Htok & Hty & _ & _). simpl in Htok.
  pose proof (run_line _ _ Hrun) as Hline. simpl in Hline.
  subst body.
  exists (tokens sf), (errors sf),
         (set_tokens (tokens sf ++ [mkToken EOF [] None (cur_line sf)]) sf).
  simpl. split; [apply Hscan; lia|]. split.
  - unfold scan, scan_with. by rewrite Hscan by lia.
  - split; [exact Hty | exact Hline].
Qed.

(** C9.  In the token sequence of any source, a token never has a smaller
    line than a token before it. *)
Theorem token_lines_monotone (src : pystr) :
  exists toks errs,
    scan src = Ok (toks, errs) /\
    forall i j ti tj,
      i < j -> toks !! i = Some ti -> toks !! j = Some tj -> line ti <= line tj.
Proof.
  destruct (scan_run src) as (sf & Hrun & Hscan).
  destruct (run_tokens _ _ Hrun) as (body & Htok & _ & Hsorted & Hlines). simpl in Htok.
  exists (tokens sf ++ [mkToken EOF [] None (cur_line sf)]), (errors sf). split.
  - unfold scan, scan_with. by rewrite Hscan by lia.
  - intros i j ti tj Hij Hi Hj.
    rewrite Htok in Hi, Hj.
    apply (StronglySorted_lookup line_le
             (body ++ [mkToken EOF [] None (cur_line sf)]) i j ti tj); [|done..].
    clear Hi Hj Htok.
    induction Hsorted as [|t body Hs IH Hall].
    + repeat constructor.
    + inversion Hlines as [|? ? Ht Hrest]; subst. simpl.
      constructor; [by apply IH|].
      apply Forall_app. split; [exact Hall|].
      constructor; [|constructor]. unfold line_le. simpl. lia.
Qed.

Lemma token_lines_monotone_witness :
  exists toks errs ti tj,
    scan (pystr_of "a b") = Ok (toks, errs) /\
    toks !! 0 = Some ti /\ toks !! 1 = Some tj /\ line ti <= line tj.
Proof.
  destruct (token_lines_monotone (pystr_of "a b")) as (toks & errs & Hs & H).
  assert (Ht : toks = [mkToken IDENTIFIER [97%N] None 1; mkToken IDENTIFIER [98%N] None 1;
                       mkToken EOF [] None 1]).
  { vm_compute in Hs. by injection Hs as <- _. }
  exists toks, errs, (mkToken IDENTIFIER [97%N] None 1), (mkToken IDENTIFIER [98%N] None 1).
  split; [exact Hs|]. subst toks. split; [reflexivity|]. split; [reflexivity|].
  apply (H 0 1); [lia | reflexivity | reflexivity].
Defined.

(** ** Where the tokens lie in the source *)

Lemma placed_from_weaken rule src lo lo' offs body :
  lo <= lo' -> placed_from rule src lo' offs body -> placed_from rule src lo offs body.
Proof.
  intros Hle. destruct offs as [|off offs], body as [|t body]; simpl; auto.
  intros (H1 & H2 & H3 & H4). split; [lia | auto].
Qed.

Lemma token_lexeme_line (src : pystr) off text rest ty lit ln :
  drop off src = text ++ rest ->
  text <> [] ->
  last text <> Some NL ->
  (ty <> STRING -> count_nl text = 0) ->
  ln = line_of src off ->
  lexeme_line src off (mkToken ty text lit (ln + count_nl text)).
Proof.
  intros Hd Hne Hlast Hty ->. unfold lexeme_line, on_end_line, on_start_line.
  cbn [line lexeme type].
  split; [|split; [intros ->; lia | exact Hty]].
  destruct text as [|c text' _] using rev_ind; [done|].
  rewrite last_snoc in Hlast.
  assert (Hc : c <> NL) by congruence.
  rewrite <- app_assoc in Hd.
  rewrite length_app. cbn [length].
  replace (off + (length text' + 1) - 1) with (off + length text') by lia.
  rewrite (line_of_advance _ _ _ _ Hd), count_nl_app, (single_not_nl _ Hc). lia.
Qed.

Lemma run_layout s s' :
  run_to s s' ->
  current s <= length (source s) ->
  cur_line s = line_of (source s) (current s) ->
  exists new offs,
    tokens s' = tokens s ++ new /\
    placed_from lexeme_line (source s) (current s) offs new.
Proof.
  induction 1 as [s Hge|s text toks errs s' Hlt Hshape Hrun IH]; intros Hle Hline.
  - exists [], []. by rewrite app_nil_r.
  - pose proof (step_text_bound _ _ _ _ Hle Hshape) as Hbound.
    destruct Hshape as [Htext Hne _ Htoks].
    destruct IH as (new & offs & Htok & Hplaced).
    { exact Hbound. }
    { simpl. rewrite (line_of_advance _ _ _ _ Htext). lia. }
    simpl in Htok, Hplaced.
    destruct Htoks as [->|(ty & lit & -> & _ & Hty & Hlast)].
    + exists new, offs. rewrite app_nil_r in Htok. split; [exact Htok|].
      apply (placed_from_weaken _ _ _ (current s + length text)); [lia | exact Hplaced].
    + exists (mkToken ty text lit (cur_line s + count_nl text) :: new), (current s :: offs).
      rewrite <- app_assoc in Htok. split; [exact Htok|].
      simpl. split; [lia|]. split; [|split; [|exact Hplaced]].
      * unfold spans. simpl. split; [exact Hne|]. split; [exact Hbound|].
        by apply (slice_prefix _ _ _ _ Htext).
      * by apply (token_lexeme_line _ _ _ _ _ _ _ Htext).
Qed.

(** C1 (amended).  Every token but the final EOF lies in the source at a
    known offset, the tokens in order and without overlap, and its line is the
    value of the line counter when it is emitted: the line on which its lexeme
    ends.  That is the line on which the lexeme begins for every token whose
    lexeme holds no newline, which is every token that is not a STRING. *)
Theorem token_line_is_end_line (src : pystr) :
  exists body errs eof offs,
    scan src = Ok (body ++ [eof], errs) /\
    type eof = EOF /\
    placed_from lexeme_line src 0 offs body.
Proof.
  destruct (scan_run src) as (sf & Hrun & Hscan).
  destruct (run_layout _ _ Hrun) as (body & offs & Htok & Hplaced).
  { simpl. lia. }
  { reflexivity. }
  simpl in Htok, Hplaced.
  exists body, (errors sf), (mkToken EOF [] None (cur_line sf)), offs.
  split; [|split; [reflexivity | exact Hplaced]].
  unfold scan, scan_with. by rewrite Hscan, Htok by lia.
Qed.

(** C1 as stated fails: the STRING token of a literal that opens on line 1
    and closes on line 2 reports line 2. *)
Lemma multi_line_string_reports_closing_line :
  scan multi_line_string =
    Ok ([mkToken STRING multi_line_string (Some (LStr (pystr_of "a" ++ NL :: pystr_of "b"))) 2;
         mkToken EOF [] None 2], []) /\
  ~ lines_are_start_lines multi_line_string.
Proof.
  split; [reflexivity|].
  intros (body & errs & eof & offs & Hscan & Hplaced).
  vm_compute in Hscan. injection Hscan as Hbody _.
  destruct body as [|t [|t' body]]; simpl in Hbody; try discriminate.
  2:{ injection Hbody as _ _ Hbody. by destruct body. }
  injection Hbody as <- _.
  destruct offs as [|off offs]; simpl in Hplaced; [done|].
  destruct Hplaced as (_ & (_ & Hoff & _) & Hline & _).
  unfold on_start_line in Hline. simpl in Hoff, Hline.
  assert (off = 0) as -> by lia. discriminate Hline.
Qed.

(** ** Single iterations, stated on the fields of the scanner *)

Lemma step_to_after fuel s text toks errs ln :
  iteration fuel s = Ok (tt, after s text toks errs) ->
  ln = cur_line s + count_nl text ->
  step_to fuel s (length text) ln toks errs.
Proof. intros H ->. exact H. Qed.

(** The last iteration: it leaves the cursor at the end of the source, and
    [scan_tokens] appends the EOF token. *)
Lemma scan_tokens_last fuel s s1 :
  length (source s) < fuel ->
  current s < length (source s) ->
  iteration fuel s = Ok (tt, s1) ->
  length (source s1) <= current s1 ->
  scan_tokens fuel s =
    Ok ((tokens s1 ++ [mkToken EOF [] None (cur_line s1)], errors s1),
        set_tokens (tokens s1 ++ [mkToken EOF [] None (cur_line s1)]) s1).
Proof.
  intros Hf Hlt Hit Hend. unfold scan_tokens.
  change (cur <- get current ;; modify (set_start cur) ;; scan_token fuel)
    with (iteration fuel).
  destruct fuel as [|[|fuel]]; [lia..|].
  erewrite bind_ok; [reflexivity|].
  simpl. rewrite (bind_ok _ _ _ _ _ (at_end_cond_run s)).
  rewrite (leb_correct_conv _ _ Hlt). simpl.
  rewrite (bind_ok _ _ _ _ _ Hit).
  rewrite (bind_ok _ _ _ _ _ (at_end_cond_run s1)).
  by rewrite (leb_correct _ _ Hend).
Qed.

Lemma take_while_all {A} (p : A -> bool) l :
  Forall (fun x => p x = true) l -> take_while p l = l.
Proof.
  intros H. rewrite <- (app_nil_r l) at 1. by apply take_while_app.
Qed.

Lemma not_quote_Forall (l : pystr) :
  QUOTE ∉ l -> Forall (fun c => not_quote c = true) l.
Proof.
  intros H. apply Forall_forall. intros c Hc. unfold not_quote.
  apply negb_true_iff, N.eqb_neq. intros ->. by apply H.
Qed.

(** C4.  When the character at the cursor opens a string and no closing
    quote follows in the source, the scan from that loop head adds no token
    but the final EOF, and exactly one diagnostic: the unterminated-string
    message with the line counter's value at the end of the source, which is
    also the line of the EOF token.  In particular a quote followed by [abc]
    yields the EOF token alone and the message for line 1. *)
Theorem unterminated_string_diagnostic :
  (forall fuel s,
     length (source s) < fuel ->
     source s !! current s = Some QUOTE ->
     QUOTE ∉ drop (current s + 1) (source s) ->
     let ln := cur_line s + count_nl (drop (current s) (source s)) in
     exists sf,
       scan_tokens fuel s =
         Ok ((tokens s ++ [mkToken EOF [] None ln],
              errors s ++ [pystr_of "[line " ++ str_int ln
                           ++ pystr_of "] Error: Unterminated string."]), sf)) /\
  scan (QUOTE :: pystr_of "abc") =
    Ok ([mkToken EOF [] None 1], [pystr_of "[line 1] Error: Unterminated string."]).
Proof.
  split; [|reflexivity].
  intros fuel s Hf Hc Hnq ln.
  assert (Hlt : current s < length (source s)) by (by eapply lookup_lt_Some).
  pose proof (drop_S _ _ _ Hc) as Hd. replace (S (current s)) with (current s + 1) in Hd by lia.
  pose proof (take_while_all _ _ (not_quote_Forall _ Hnq)) as Hbody.
  pose proof (string_step fuel s QUOTE Hf Hc eq_refl) as Hstep. simpl in Hstep.
  rewrite Hbody, <- Hd in Hstep.
  rewrite leb_correct in Hstep by (rewrite length_drop; lia).
  fold ln in Hstep.
  assert (Hit : iteration fuel s =
                Ok (tt, after s (drop (current s) (source s)) []
                          [diagnostic ln (pystr_of "Unterminated string.")])).
  { rewrite (iteration_begin _ _ _ Hc). exact Hstep. }
  eexists. rewrite (scan_tokens_last _ _ _ Hf Hlt Hit).
  - simpl. rewrite app_nil_r. reflexivity.
  - simpl. rewrite length_drop. lia.
Qed.

Lemma unterminated_string_diagnostic_witness :
  exists sf,
    scan_tokens 5 (Scanner_init (QUOTE :: pystr_of "ab")) =
      Ok (([mkToken EOF [] None 1], [pystr_of "[line 1] Error: Unterminated string."]), sf).
Proof.
  apply (proj1 unterminated_string_diagnostic 5 (Scanner_init (QUOTE :: pystr_of "ab"))).
  - simpl. lia.
  - reflexivity.
  - apply (bool_decide_unpack _). vm_compute. exact I.
Defined.

(** ** Unexpected characters *)

Lemma dispatch_no_rule fuel c :
  matches_no_rule c = true ->
  c <> NL /\ dispatch fuel c = error (pystr_of "Unexpected character: " ++ [c]).
Proof.
  intros H. unfold matches_no_rule in H. apply negb_true_iff in H.
  repeat rewrite orb_false_iff in H.
  destruct H as ((((((((Hp & Ho) & Hs) & Hw) & Hn) & Hq) & Hd) & Hl) & Hu).
  split; [by apply N.eqb_neq|].
  unfold dispatch.
  repeat match goal with
         | |- context [(c =? ch ?x)%N] =>
             destruct (N.eqb_spec c (ch x)) as [->|_];
             [ first [ by vm_compute in Hp | by vm_compute in Ho
                     | by vm_compute in Hs | by vm_compute in Hw
                     | by vm_compute in Hu ] | ]
         end.
  destruct (N.eqb_spec c CR) as [->|_]; [by vm_compute in Hw|].
  destruct (N.eqb_spec c TAB) as [->|_]; [by vm_compute in Hw|].
  rewrite Hn, Hq, Hd. unfold is_alpha_numeric, is_alpha.
  fold (is_ascii_letter c). rewrite Hl, Hu, Hd. reflexivity.
Qed.

(** C5.  When the character at the cursor matches no rule, the iteration
    appends the unexpected-character diagnostic with the current line and the
    character, appends no token, leaves the line counter alone and moves the
    cursor to the next character, where scanning goes on: [@] alone yields the
    EOF token and one diagnostic, and in [@1] the number after it is
    scanned. *)
Theorem unexpected_character_diagnostic :
  (forall fuel s c,
     source s !! current s = Some c ->
     matches_no_rule c = true ->
     step_to fuel s 1 (cur_line s) []
       [pystr_of "[line " ++ str_int (cur_line s)
        ++ pystr_of "] Error: Unexpected character: " ++ [c]]) /\
  scan (pystr_of "@") =
    Ok ([mkToken EOF [] None 1], [pystr_of "[line 1] Error: Unexpected character: @"]) /\
  scan (pystr_of "@1") =
    Ok ([mkToken NUMBER (pystr_of "1") (Some (LNum 1%float)) 1; mkToken EOF [] None 1],
        [pystr_of "[line 1] Error: Unexpected character: @"]).
Proof.
  split; [|split; reflexivity].
  intros fuel s c Hc Hno.
  destruct (dispatch_no_rule fuel c Hno) as [Hnl Hd].
  unfold step_to. rewrite (iteration_begin _ _ _ Hc), Hd, (unexpected_step s c Hc Hnl).
  apply Ok_state. unfold after. rewrite (single_not_nl _ Hnl), app_nil_r, Nat.add_0_r.
  reflexivity.
Qed.

Lemma unexpected_character_diagnostic_witness :
  step_to 3 (Scanner_init (pystr_of "@")) 1 1 []
    [pystr_of "[line 1] Error: Unexpected character: @"].
Proof.
  apply (proj1 unexpected_character_diagnostic 3 (Scanner_init (pystr_of "@")) (ch "@"));
    reflexivity.
Defined.

(** ** Numbers *)

Lemma dispatch_digit fuel c : is_digit c = true -> dispatch fuel c = number fuel.
Proof.
  intros Hd. unfold dispatch.
  repeat match goal with
         | |- context [(c =? ?x)%N] =>
             destruct (N.eqb_spec c x) as [->|_]; [by vm_compute in Hd|]
         end.
  simpl. by rewrite Hd.
Qed.

Lemma number_lexeme_decimal ds fs rest :
  Forall (fun c => is_digit c = true) ds ->
  fs <> [] -> Forall (fun c => is_digit c = true) fs ->
  stops is_digit rest ->
  number_lexeme (ds ++ ch "." :: fs ++ rest) = ds ++ ch "." :: fs.
Proof.
  intros Hds Hne Hfs Hrest. unfold number_lexeme.
  rewrite (take_while_app is_digit ds (ch "." :: fs ++ rest) Hds eq_refl).
  rewrite (drop_while_app is_digit ds (ch "." :: fs ++ rest) Hds eq_refl).
  f_equal. destruct fs as [|d fs]; [done|]. unfold fraction.
  rewrite <- app_comm_cons.
  inversion Hfs as [|? ? Hd _]; subst. rewrite N.eqb_refl, Hd. cbn [andb].
  f_equal. rewrite app_comm_cons. by apply take_while_app.
Qed.

Lemma number_lexeme_integer ds rest :
  Forall (fun c => is_digit c = true) ds ->
  stops is_digit rest ->
  (forall d rest', rest = ch "." :: d :: rest' -> is_digit d = false) ->
  number_lexeme (ds ++ rest) = ds.
Proof.
  intros Hds Hrest Hdot. unfold number_lexeme.
  rewrite (take_while_app is_digit ds _ Hds Hrest).
  rewrite (drop_while_app is_digit ds _ Hds Hrest).
  assert (fraction rest = []) as ->; [|by rewrite app_nil_r].
  destruct rest as [|c [|c' rest']]; try done. unfold fraction.
  destruct (N.eqb_spec c (ch ".")) as [->|_]; [|done].
  by rewrite (Hdot c' rest' eq_refl).
Qed.

Lemma number_iteration fuel s ds rest :
  length (source s) < fuel ->
  drop (current s) (source s) = ds ++ rest ->
  ds <> [] -> Forall (fun c => is_digit c = true) ds ->
  exists f,
    py_float (number_lexeme (ds ++ rest)) = Some f /\
    step_to fuel s (length (number_lexeme (ds ++ rest))) (cur_line s)
      [mkToken NUMBER (number_lexeme (ds ++ rest)) (Some (LNum f)) (cur_line s)] [].
Proof.
  intros Hf Hd Hne Hds.
  destruct ds as [|c ds]; [done|]. inversion Hds as [|? ? Hc _]; subst.
  assert (Hlook : source s !! current s = Some c).
  { rewrite <- (Nat.add_0_r (current s)), <- lookup_drop, Hd. reflexivity. }
  destruct (number_step fuel s c Hf Hlook Hc) as (f & Hfl & Hnum).
  rewrite Hd in Hfl, Hnum.
  exists f. split; [exact Hfl|].
  assert (Hnl : count_nl (number_lexeme ((c :: ds) ++ rest)) = 0)
    by apply count_nl_none, number_lexeme_no_nl.
  unfold step_to. rewrite (iteration_begin _ _ _ Hlook), (dispatch_digit _ _ Hc), Hnum.
  apply Ok_state. unfold after. by rewrite Hnl, app_nil_r, Nat.add_0_r.
Qed.

Set Warnings "-inexact-float".

(** C6.  At a loop head where the source continues with a non-empty run of
    ASCII digits [ds] that is maximal (what follows does not start with a
    digit), the iteration emits one NUMBER token whose literal is [float] of
    the lexeme.  When the run is followed by a dot and a non-empty maximal run
    of digits [fs], the lexeme is [ds.fs]; when it is not followed by a dot and
    a digit, the lexeme is [ds] and the dot, if any, is left in the source.
    [123.45] yields NUMBER 123.45, and [123.] yields NUMBER 123.0 and DOT. *)
Theorem number_literal :
  (forall fuel s ds rest,
     length (source s) < fuel ->
     drop (current s) (source s) = ds ++ rest ->
     ds <> [] -> Forall (fun c => is_digit c = true) ds ->
     stops is_digit rest ->
     (forall fs rest',
        rest = ch "." :: fs ++ rest' ->
        fs <> [] -> Forall (fun c => is_digit c = true) fs ->
        stops is_digit rest' ->
        exists f,
          py_float (ds ++ ch "." :: fs) = Some f /\
          step_to fuel s (length (ds ++ ch "." :: fs)) (cur_line s)
            [mkToken NUMBER (ds ++ ch "." :: fs) (Some (LNum f)) (cur_line s)] []) /\
     ((forall d rest', rest = ch "." :: d :: rest' -> is_digit d = false) ->
      exists f,
        py_float ds = Some f /\
        step_to fuel s (length ds) (cur_line s)
          [mkToken NUMBER ds (Some (LNum f)) (cur_line s)] [])) /\
  scan (pystr_of "123.45") =
    Ok ([mkToken NUMBER (pystr_of "123.45") (Some (LNum 123.45%float)) 1;
         mkToken EOF [] None 1], []) /\
  scan (pystr_of "123.") =
    Ok ([mkToken NUMBER (pystr_of "123") (Some (LNum 123.0%float)) 1;
         mkToken DOT (pystr_of ".") None 1;
         mkToken EOF [] None 1], []).
Proof.
  split; [|split; reflexivity].
  intros fuel s ds rest Hf Hd Hne Hds Hrest.
  destruct (number_iteration fuel s ds rest Hf Hd Hne Hds) as (f & Hfl & Hstep).
  split.
  - intros fs rest' -> Hfne Hfs Hrest'.
    rewrite (number_lexeme_decimal ds fs rest' Hds Hfne Hfs Hrest') in Hfl, Hstep.
    eauto.
  - intros Hdot.
    rewrite (number_lexeme_integer ds rest Hds Hrest Hdot) in Hfl, Hstep.
    eauto.
Qed.

Lemma number_literal_witness :
  exists f,
    py_float (pystr_of "12.5") = Some f /\
    step_to 10 (Scanner_init (pystr_of "12.5+")) 4 1
      [mkToken NUMBER (pystr_of "12.5") (Some (LNum f)) 1] [].
Proof.
  refine (proj1 (proj1 number_literal 10 (Scanner_init (pystr_of "12.5+"))
                  (pystr_of "12") (pystr_of ".5+") _ _ _ _ _)
            (pystr_of "5") (pystr_of "+") _ _ _ _).
  - simpl. lia.
  - reflexivity.
  - discriminate.
  - repeat constructor.
  - reflexivity.
  - reflexivity.
  - discriminate.
  - repeat constructor.
  - reflexivity.
Defined.

(** ** Strings *)

Lemma dispatch_quote fuel : dispatch fuel QUOTE = string_ fuel.
Proof. reflexivity. Qed.

(** C7.  At a loop head where the source continues with a quote, a text
    [body] without quote and a second quote, the iteration emits one STRING
    token whose lexeme is the literal with its quotes and whose literal is
    [body] unchanged, and the line counter grows by the number of newlines of
    [body].  A backslash is a character like any other: in ["a\"b] the literal
    ends at the second quote, its value is [a\], and [b] is scanned as an
    identifier. *)
Theorem string_literal :
  (forall fuel s body rest,
     length (source s) < fuel ->
     drop (current s) (source s) = QUOTE :: body ++ QUOTE :: rest ->
     QUOTE ∉ body ->
     step_to fuel s (length body + 2) (cur_line s + count_nl body)
       [mkToken STRING (QUOTE :: body ++ [QUOTE]) (Some (LStr body))
                (cur_line s + count_nl body)] []) /\
  scan (QUOTE :: pystr_of "abc" ++ [QUOTE]) =
    Ok ([mkToken STRING (QUOTE :: pystr_of "abc" ++ [QUOTE]) (Some (LStr (pystr_of "abc"))) 1;
         mkToken EOF [] None 1], []) /\
  scan escaped_quote_source =
    Ok ([mkToken STRING (QUOTE :: pystr_of "a\" ++ [QUOTE]) (Some (LStr (pystr_of "a\"))) 1;
         mkToken IDENTIFIER (pystr_of "b") None 1;
         mkToken EOF [] None 1], []).
Proof.
  split; [|split; reflexivity].
  intros fuel s body rest Hf Hd Hnq.
  assert (Hlook : source s !! current s = Some QUOTE).
  { rewrite <- (Nat.add_0_r (current s)), <- lookup_drop, Hd. reflexivity. }
  assert (Hd1 : drop (current s + 1) (source s) = body ++ QUOTE :: rest).
  { rewrite <- drop_drop, Hd. reflexivity. }
  pose proof (string_step fuel s QUOTE Hf Hlook eq_refl) as Hstep. simpl in Hstep.
  rewrite Hd1 in Hstep.
  rewrite (take_while_app not_quote body (QUOTE :: rest) (not_quote_Forall _ Hnq) eq_refl)
    in Hstep.
  rewrite leb_correct_conv in Hstep.
  2:{ apply (f_equal length) in Hd1. rewrite length_drop, length_app in Hd1.
      simpl in Hd1. lia. }
  unfold step_to. rewrite (iteration_begin _ _ _ Hlook), dispatch_quote, Hstep.
  apply Ok_state. unfold after.
  assert (Hnl : count_nl (QUOTE :: body ++ [QUOTE]) = count_nl body).
  { change (count_nl ([QUOTE] ++ body ++ [QUOTE]) = count_nl body).
    rewrite !count_nl_app. unfold count_nl at 1 3. simpl. lia. }
  rewrite Hnl, app_nil_r. f_equal. simpl. rewrite length_app. simpl. lia.
Qed.

Lemma string_literal_witness :
  step_to 10 (Scanner_init (QUOTE :: NL :: QUOTE :: pystr_of "x")) 3 2
    [mkToken STRING [QUOTE; NL; QUOTE] (Some (LStr [NL])) 2] [].
Proof.
  apply (proj1 string_literal 10 (Scanner_init (QUOTE :: NL :: QUOTE :: pystr_of "x"))
           [NL] (pystr_of "x")).
  - simpl. lia.
  - reflexivity.
  - apply (bool_decide_unpack _). vm_compute. exact I.
Defined.

(** ** Identifiers and reserved words *)

Lemma alpha_not_digit c : is_alpha c = true -> is_digit c = false.
Proof.
  unfold is_alpha, is_digit. intros H.
  apply andb_false_iff. rewrite !N.leb_gt.
  rewrite !orb_true_iff, !andb_true_iff, !N.leb_le, N.eqb_eq in H.
  change (ch "0") with 48%N. change (ch "9") with 57%N.
  change (ch "a") with 97%N in H. change (ch "z") with 122%N in H.
  change (ch "A") with 65%N in H. change (ch "Z") with 90%N in H.
  change (ch "_") with 95%N in H. lia.
Qed.

Lemma dispatch_alpha fuel c : is_alpha c = true -> dispatch fuel c = identifier fuel.
Proof.
  intros Ha. pose proof (alpha_not_digit c Ha) as Hd. unfold dispatch.
  repeat match goal with
         | |- context [(c =? ?x)%N] =>
             destruct (N.eqb_spec c x) as [->|_]; [by vm_compute in Ha|]
         end.
  simpl. unfold is_alpha_numeric. by rewrite Hd, Ha.
Qed.

Lemma reserved_not_IDENTIFIER text ty :
  (text, ty) ∈ reserved_table -> ty <> IDENTIFIER.
Proof.
  unfold reserved_table. intros E.
  repeat (apply elem_of_cons in E as [[= _ ->]|E]; [done|]).
  by apply elem_of_nil in E.
Qed.

(** C8.  At a loop head where the source continues with a letter or
    underscore [c] and a run [text] of letters, digits and underscores that is
    maximal, the iteration emits one token without literal whose lexeme is the
    whole run and whose kind is given by the reserved-word table when the
    lexeme is in it, and is IDENTIFIER otherwise.  [if] yields IF; [iffy] and
    [foo_1] yield IDENTIFIER. *)
Theorem identifier_or_keyword :
  (forall fuel s c text rest,
     length (source s) < fuel ->
     drop (current s) (source s) = c :: text ++ rest ->
     is_alpha c = true ->
     Forall (fun x => is_alpha_numeric x = true) text ->
     stops is_alpha_numeric rest ->
     step_to fuel s (length (c :: text)) (cur_line s)
       [mkToken (identifier_type (c :: text)) (c :: text) None (cur_line s)] []) /\
  (forall text ty, (text, ty) ∈ reserved_table -> identifier_type text = ty) /\
  (forall text, text ∉ reserved_table.*1 -> identifier_type text = IDENTIFIER) /\
  scan (pystr_of "if") =
    Ok ([mkToken IF (pystr_of "if") None 1; mkToken EOF [] None 1], []) /\
  scan (pystr_of "iffy") =
    Ok ([mkToken IDENTIFIER (pystr_of "iffy") None 1; mkToken EOF [] None 1], []) /\
  scan (pystr_of "foo_1") =
    Ok ([mkToken IDENTIFIER (pystr_of "foo_1") None 1; mkToken EOF [] None 1], []).
Proof.
  split; [|split; [|split; [|repeat split; reflexivity]]].
  - intros fuel s c text rest Hf Hd Ha Htext Hrest.
    assert (Hlook : source s !! current s = Some c).
    { rewrite <- (Nat.add_0_r (current s)), <- lookup_drop, Hd. reflexivity. }
    assert (Han : is_alpha_numeric c = true) by (unfold is_alpha_numeric; by rewrite Ha).
    pose proof (identifier_step fuel s c Hf Hlook Han) as Hstep. cbv zeta in Hstep.
    rewrite Hd in Hstep. change (c :: text ++ rest) with ((c :: text) ++ rest) in Hstep.
    rewrite (take_while_app is_alpha_numeric (c :: text) rest) in Hstep;
      [|by constructor | exact Hrest].
    unfold step_to. rewrite (iteration_begin _ _ _ Hlook), (dispatch_alpha _ _ Ha), Hstep.
    apply Ok_state. unfold after.
    assert (Hnl : count_nl (c :: text) = 0).
    { apply count_nl_none, (Forall_passing_not_nl is_alpha_numeric); [done|].
      by constructor. }
    by rewrite Hnl, app_nil_r, Nat.add_0_r.
  - intros text ty Hin. unfold identifier_type.
    apply reserved_lookup in Hin. by rewrite Hin.
  - intros text Hnot. unfold identifier_type.
    destruct (reserved_words !! text) as [ty|] eqn:E; [|done].
    exfalso. apply Hnot. apply reserved_lookup in E.
    apply list_elem_of_fmap. by exists (text, ty).
Qed.

Lemma identifier_or_keyword_witness :
  step_to 10 (Scanner_init (pystr_of "or+")) 2 1 [mkToken OR (pystr_of "or") None 1] [].
Proof.
  apply (proj1 identifier_or_keyword 10 (Scanner_init (pystr_of "or+"))
           (ch "o") (pystr_of "r") (pystr_of "+")).
  - simpl. lia.
  - reflexivity.
  - reflexivity.
  - repeat constructor.
  - reflexivity.
Defined.

(** C10.  The reserved-word lookup gives a keyword kind exactly for the
    sixteen reserved words, compared character by character; they are all in
    lower case, so [IF], [If] and [True] are scanned as IDENTIFIER tokens. *)
Theorem reserved_words_case_sensitive :
  (forall text, identifier_type text <> IDENTIFIER <-> text ∈ keywords) /\
  length keywords = 16 /\
  Forall (fun w => forallb is_lower w = true) keywords /\
  scan (pystr_of "IF") =
    Ok ([mkToken IDENTIFIER (pystr_of "IF") None 1; mkToken EOF [] None 1], []) /\
  scan (pystr_of "If") =
    Ok ([mkToken IDENTIFIER (pystr_of "If") None 1; mkToken EOF [] None 1], []) /\
  scan (pystr_of "True") =
    Ok ([mkToken IDENTIFIER (pystr_of "True") None 1; mkToken EOF [] None 1], []).
Proof.
  split; [|split; [reflexivity | split; [|repeat split; reflexivity]]].
  - intros text. change keywords with (reserved_table.*1). unfold identifier_type. split.
    + destruct (reserved_words !! text) as [ty|] eqn:E; [|done]. intros _.
      apply reserved_lookup in E. apply list_elem_of_fmap. by exists (text, ty).
    + intros Hin. apply list_elem_of_fmap in Hin as ([text' ty] & -> & Hin).
      pose proof (reserved_not_IDENTIFIER _ _ Hin) as Hty.
      apply reserved_lookup in Hin. simpl. by rewrite Hin.
  - repeat constructor.
Qed.

Lemma reserved_words_case_sensitive_witness :
  identifier_type (pystr_of "while") <> IDENTIFIER.
Proof.
  apply (proj2 (proj1 reserved_words_case_sensitive (pystr_of "while"))).
  apply (bool_decide_unpack _). vm_compute. exact I.
Defined.

(** * Beyond the claims: the scan as a segmentation of the source *)

Lemma head_drop {A} (l : list A) n : head (drop n l) = l !! n.
Proof. rewrite head_lookup, lookup_drop. f_equal. lia. Qed.

Lemma stops_drop_while (p : N -> bool) l : stops p (drop_while p l).
Proof.
  unfold stops. destruct (head (drop_while p l)) as [x|] eqn:E; simpl; [|done].
  by apply (drop_while_head p l).
Qed.

Lemma stops_not_next (l : pystr) n x :
  l !! n <> Some x -> stops (N.eqb x) (drop n l).
Proof.
  intros H. unfold stops. rewrite head_drop.
  destruct (l !! n) as [y|]; simpl; [|done].
  apply N.eqb_neq. congruence.
Qed.

Lemma passing_excludes (p : N -> bool) (l : pystr) x :
  p x = false -> Forall (fun c => p c = true) l -> x ∉ l.
Proof.
  intros Hx Hall Hin. rewrite Forall_forall in Hall.
  specialize (Hall x Hin). congruence.
Qed.

Lemma number_lexeme_shape d l : is_digit d = true -> number_shape (number_lexeme (d :: l)).
Proof.
  intros Hd. unfold number_shape, number_lexeme.
  exists (take_while is_digit (d :: l)), (fraction (drop_while is_digit (d :: l))).
  split; [done|]. split; [simpl; by rewrite Hd|]. split; [apply take_while_Forall|].
  destruct (fraction_shape (drop_while is_digit (d :: l))) as [->|(fs & -> & Hne & Hfs)];
    eauto.
Qed.

Lemma number_lexeme_maximal l rest :
  l = number_lexeme l ++ rest ->
  stops is_digit rest /\ ((ch "." ∈ number_lexeme l) \/ fraction rest = []).
Proof.
  unfold number_lexeme. intros H.
  rewrite <- (take_while_drop_while is_digit l) in H at 1.
  rewrite <- app_assoc in H. apply app_inv_head in H.
  pose proof (stops_drop_while is_digit l) as Hstop.
  destruct (drop_while is_digit l) as [|c [|c' r]] eqn:E;
    [simpl in H; subst rest; auto .. |].
  unfold fraction in H.
  destruct ((c =? ch ".")%N && is_digit c') eqn:Ec; cbn [app] in H.
  - rewrite <- (take_while_drop_while is_digit (c' :: r)) in H at 1.
    injection H as H. apply app_inv_head in H. subst rest. split.
    + exact (stops_drop_while is_digit (c' :: r)).
    + left. apply elem_of_app. right. unfold fraction. rewrite Ec.
      apply andb_true_iff in Ec as [Ec _]. apply N.eqb_eq in Ec. subst c. by left.
  - subst rest. split; [exact Hstop|]. right. unfold fraction. by rewrite Ec.
Qed.

Lemma keyword_token_ok text ty :
  (text, ty) ∈ reserved_table -> is_word ty = true /\ token_ok ty text None.
Proof.
  unfold reserved_table. intros E.
  repeat (apply elem_of_cons in E as [[= -> ->]|E]; [by repeat split|]).
  by apply elem_of_nil in E.
Qed.

Lemma not_keyword text : reserved_words !! text = None -> text ∉ keywords.
Proof.
  intros Hnone Hin. change keywords with (reserved_table.*1) in Hin.
  apply list_elem_of_fmap in Hin as ([text' ty] & -> & Hin).
  apply reserved_lookup in Hin. simpl in *. congruence.
Qed.

Lemma is_word_not_others ty :
  is_word ty = true -> ty <> NUMBER /\ is_short_operator ty = false /\ ty <> SLASH.
Proof. by destruct ty. Qed.

Lemma word_maximal ty text rest :
  is_word ty = true -> stops is_alpha_numeric rest -> maximal ty text rest.
Proof.
  intros Hw Hstop. destruct (is_word_not_others ty Hw) as (H1 & H2 & H3).
  unfold maximal. rewrite H2. repeat split; try done.
Qed.

Lemma plain_maximal ty text rest :
  is_word ty = false -> ty <> NUMBER -> is_short_operator ty = false -> ty <> SLASH ->
  maximal ty text rest.
Proof. intros H1 H2 H3 H4. unfold maximal. rewrite H1, H3. repeat split; done. Qed.

Lemma no_rule_intro c :
  existsb (N.eqb c) (pystr_of "(){}*.,+-;") = false ->
  existsb (N.eqb c) (pystr_of "!=<>") = false ->
  c <> ch "/" ->
  (c =? ch " ")%N || (c =? CR)%N || (c =? TAB)%N = false ->
  c <> NL -> c <> QUOTE -> is_digit c = false -> is_alpha_numeric c = false ->
  matches_no_rule c = true.
Proof.
  intros Hp Ho Hs Hw Hn Hq Hd Ha. unfold matches_no_rule.
  rewrite Hp, Ho, Hd. simpl existsb.
  apply orb_false_iff in Hw as [Hw Ht]. apply orb_false_iff in Hw as [Hsp Hcr].
  rewrite Hsp, Hcr, Ht.
  apply N.eqb_neq in Hs, Hn, Hq. rewrite Hs, Hn, Hq. simpl.
  unfold is_alpha_numeric, is_alpha in Ha. rewrite Hd, orb_false_r in Ha.
  fold (is_ascii_letter c) in Ha. by rewrite Ha.
Qed.

Lemma operator_maximal ty text rest :
  is_short_operator ty = true -> stops (N.eqb (ch "=")) rest -> maximal ty text rest.
Proof. intros Hty Hstop. destruct ty; try discriminate; by repeat split. Qed.

Lemma slash_maximal text rest :
  stops (N.eqb (ch "/")) rest -> maximal SLASH text rest.
Proof. intros Hstop. by repeat split. Qed.

Lemma cases_intro (r : outcome (unit * Scanner)) s text rest toks errs :
  r = Ok (tt, after s text toks errs) ->
  drop (current s) (source s) = text ++ rest ->
  text <> [] ->
  step_case (cur_line s) text rest toks errs ->
  exists text toks errs,
    r = Ok (tt, after s text toks errs) /\
    drop (current s) (source s) = text ++ drop (current s + length text) (source s) /\
    text <> [] /\
    step_case (cur_line s) text (drop (current s + length text) (source s)) toks errs.
Proof.
  intros Hr Hd Hne Hcase. exists text, toks, errs.
  rewrite (drop_prefix _ _ _ _ Hd). auto.
Qed.

Ltac punctuation_case Hc Hdrop :=
  eapply cases_intro;
  [ apply single_token_step; [exact Hc | intros ?; subst; discriminate]
  | exact Hdrop | done
  | apply case_token; [subst; by split | by apply plain_maximal] ].

Ltac operator_case Hc Hdrop :=
  let Hm := fresh "Hm" in
  match type of Hc with
  | _ = Some ?c =>
      rewrite (operator_step _ c) by (first [exact Hc | intros ?; subst; discriminate])
  end;
  case_bool_decide as Hm;
  [ eapply cases_intro;
    [ reflexivity | exact (drop_two _ _ _ _ Hc Hm) | done
    | apply case_token; [subst; by split | by apply plain_maximal] ]
  | eapply cases_intro;
    [ reflexivity | exact Hdrop | done
    | apply case_token;
      [ subst; by split
      | apply operator_maximal; [by subst | by apply stops_not_next] ] ] ].

Lemma iteration_cases fuel s :
  length (source s) < fuel ->
  current s < length (source s) ->
  exists text toks errs,
    iteration fuel s = Ok (tt, after s text toks errs) /\
    drop (current s) (source s) = text ++ drop (current s + length text) (source s) /\
    text <> [] /\
    step_case (cur_line s) text (drop (current s + length text) (source s)) toks errs.
Proof.
  intros Hf Hlt.
  destruct (lookup_lt_is_Some_2 _ _ Hlt) as [c Hc].
  rewrite (iteration_begin _ _ _ Hc).
  assert (Hdrop : drop (current s) (source s) = [c] ++ drop (current s + 1) (source s)).
  { rewrite (drop_S _ _ _ Hc). by replace (S (current s)) with (current s + 1) by lia. }
  unfold dispatch.
  destruct (N.eqb_spec c (ch "(")); [punctuation_case Hc Hdrop|].
  destruct (N.eqb_spec c (ch ")")); [punctuation_case Hc Hdrop|].
  destruct (N.eqb_spec c (ch "{")); [punctuation_case Hc Hdrop|].
  destruct (N.eqb_spec c (ch "}")); [punctuation_case Hc Hdrop|].
  destruct (N.eqb_spec c (ch "*")); [punctuation_case Hc Hdrop|].
  destruct (N.eqb_spec c (ch ".")); [punctuation_case Hc Hdrop|].
  destruct (N.eqb_spec c (ch ",")); [punctuation_case Hc Hdrop|].
  destruct (N.eqb_spec c (ch "+")); [punctuation_case Hc Hdrop|].
  destruct (N.eqb_spec c (ch "-")); [punctuation_case Hc Hdrop|].
  destruct (N.eqb_spec c (ch ";")); [punctuation_case Hc Hdrop|].
  assert (Hp : existsb (N.eqb c) (pystr_of "(){}*.,+-;") = false).
  { apply not_true_is_false. intros Hex.
    apply existsb_exists in Hex as (x & Hin & Hx). apply N.eqb_eq in Hx. subst x.
    simpl in Hin.
    repeat (destruct Hin as [Hin|Hin];
            [match goal with H : c <> _ |- _ => by apply H end|]).
    done. }
  destruct (N.eqb_spec c (ch "!")); [operator_case Hc Hdrop|].
  destruct (N.eqb_spec c (ch "=")); [operator_case Hc Hdrop|].
  destruct (N.eqb_spec c (ch "<")); [operator_case Hc Hdrop|].
  destruct (N.eqb_spec c (ch ">")); [operator_case Hc Hdrop|].
  assert (Ho : existsb (N.eqb c) (pystr_of "!=<>") = false).
  { apply not_true_is_false. intros Hex.
    apply existsb_exists in Hex as (x & Hin & Hx). apply N.eqb_eq in Hx. subst x.
    simpl in Hin.
    repeat (destruct Hin as [Hin|Hin];
            [match goal with H : c <> _ |- _ => by apply H end|]).
    done. }
  destruct (N.eqb_spec c (ch "/")) as [Esl|Hsl].
  { rewrite (slash_step fuel s c Hf Hc Esl). case_bool_decide as Hm.
    - eapply (cases_intro _ _ _ (drop_while not_nl (drop (current s + 2) (source s))));
        [reflexivity | | done |].
      + rewrite (drop_two _ _ _ _ Hc Hm). cbn [app].
        by rewrite take_while_drop_while.
      + apply case_trivia. right.
        exists (take_while not_nl (drop (current s + 2) (source s))).
        split; [by subst c|]. split; [|apply stops_drop_while].
        apply (passing_excludes not_nl); [done | apply take_while_Forall].
    - eapply cases_intro; [reflexivity | exact Hdrop | done |].
      apply case_token; [subst; by split|].
      by apply slash_maximal, stops_not_next. }
  destruct ((c =? ch " ")%N || (c =? CR)%N || (c =? TAB)%N) eqn:Ews.
  { assert (Hnl : c <> NL) by (intros ->; discriminate).
    eapply (cases_intro _ _ [c]); [| exact Hdrop | done |].
    - unfold ret. apply Ok_state. by apply whitespace_step.
    - apply case_trivia. left. exists c. split; [done|].
      apply orb_true_iff in Ews as [Ews|Ews];
        [apply orb_true_iff in Ews as [Ews|Ews]|];
        apply N.eqb_eq in Ews; subst c; set_solver. }
  destruct (N.eqb_spec c NL) as [->|Hnl].
  { eapply (cases_intro _ _ [NL]); [by apply newline_step | exact Hdrop | done |].
    apply case_trivia. left. exists NL. split; [done | set_solver]. }
  destruct (N.eqb_spec c QUOTE) as [Eq|Hq].
  { rewrite (string_step fuel s c Hf Hc Eq).
    pose proof (string_text _ _ _ Hc) as Htext. cbv zeta in Htext.
    assert (Hbody : QUOTE ∉ take_while not_quote (drop (current s + 1) (source s))).
    { apply (passing_excludes not_quote); [done | apply take_while_Forall]. }
    destruct (length (source s) <=? current s + 1 + length _).
    - eapply cases_intro; [reflexivity | exact Htext | done |].
      eapply case_unterminated; [by subst c | exact Hbody | reflexivity].
    - destruct Htext as [rest Htext].
      eapply cases_intro; [reflexivity | exact Htext | done |].
      apply case_token; [|by apply plain_maximal].
      eexists. split; [by subst c|]. split; [exact Hbody | reflexivity]. }
  destruct (is_digit c) eqn:Ed.
  { destruct (number_step fuel s c Hf Hc Ed) as (f & Hfl & ->).
    destruct (number_lexeme_prefix (drop (current s) (source s))) as [rest Hrest].
    assert (Hshape : number_shape (number_lexeme (drop (current s) (source s)))).
    { rewrite Hdrop. cbn [app]. by apply number_lexeme_shape. }
    eapply cases_intro; [reflexivity | exact Hrest | |].
    - destruct Hshape as (ds & fr & -> & Hne & _). by destruct ds.
    - apply case_token.
      + split; [exact Hshape | eauto].
      + unfold maximal. split; [done|]. split; [|by split].
        intros _. exact (number_lexeme_maximal _ _ Hrest). }
  destruct (is_alpha_numeric c) eqn:Ea.
  { rewrite (identifier_step fuel s c Hf Hc Ea). cbv zeta.
    set (text := take_while is_alpha_numeric (drop (current s) (source s))).
    assert (Htext : text = c :: take_while is_alpha_numeric (drop (current s + 1) (source s))).
    { unfold text. rewrite Hdrop. simpl. by rewrite Ea. }
    eapply (cases_intro _ _ _ (drop_while is_alpha_numeric (drop (current s) (source s))));
      [reflexivity | | by rewrite Htext |].
    - symmetry. apply (take_while_drop_while is_alpha_numeric).
    - apply case_token.
      + unfold identifier_type.
        destruct (reserved_words !! text) as [ty|] eqn:E; simpl.
        * apply reserved_lookup in E. by apply keyword_token_ok.
        * split; [|split; [by apply not_keyword | done]].
          exists c, (take_while is_alpha_numeric (drop (current s + 1) (source s))).
          split; [exact Htext|]. split; [|apply take_while_Forall].
          unfold is_alpha_numeric in Ea. by rewrite Ed, orb_false_r in Ea.
      + apply word_maximal; [|apply stops_drop_while].
        unfold identifier_type.
        destruct (reserved_words !! text) as [ty|] eqn:E; simpl; [|done].
        apply reserved_lookup in E. by apply keyword_token_ok in E as [E _]. }
  rewrite (unexpected_step s c Hc Hnl), (single_not_nl _ Hnl), Nat.add_0_r.
  eapply cases_intro; [reflexivity | exact Hdrop | done |].
  apply (case_unexpected _ _ _ c); [done|]. by apply no_rule_intro.
Qed.

Lemma line_of_end (src : pystr) : line_of src (length src) = 1 + count_nl src.
Proof. unfold line_of. by rewrite firstn_all. Qed.

Lemma main_loop_pieces fuel n : forall s,
  length (source s) < fuel ->
  length (source s) - current s < n ->
  current s <= length (source s) ->
  cur_line s = line_of (source s) (current s) ->
  exists ps s',
    while n (e <- is_at_end ;; ret (negb e)) (iteration fuel) s = Ok (tt, s') /\
    lexes (source s) (current s) ps /\
    source s' = source s /\
    tokens s' = tokens s ++ pieces_tokens ps /\
    errors s' = errors s ++ pieces_errors ps /\
    cur_line s' = line_of (source s) (length (source s)).
Proof.
  induction n as [|n IH]; intros s Hf Hn Hle Hline; [lia|].
  simpl. rewrite (bind_ok _ _ _ _ _ (at_end_cond_run s)).
  destruct (length (source s) <=? current s) eqn:E; simpl.
  - apply Nat.leb_le in E. exists [], s.
    unfold pieces_tokens, pieces_errors. simpl. rewrite !app_nil_r.
    repeat split; try done. rewrite Hline. f_equal. lia.
  - apply Nat.leb_gt in E.
    destruct (iteration_cases fuel s Hf E) as (text & toks & errs & Hrun & Htext & Hne & Hcase).
    rewrite (bind_ok _ _ _ _ _ Hrun).
    pose proof (prefix_bound _ _ _ _ Hle Htext) as Hbound.
    assert (Hlen : length text <> 0) by (destruct text; [done | simpl; lia]).
    destruct (IH (after s text toks errs)) as (ps & s' & Hw & Hlex & Hs & Ht & He & Hl).
    { done. }
    { simpl. lia. }
    { exact Hbound. }
    { simpl. rewrite (line_of_advance _ _ _ _ Htext). lia. }
    simpl in Hlex, Hs, Ht, He, Hl.
    exists (mkPiece text toks errs :: ps), s'. split; [exact Hw|].
    unfold pieces_tokens, pieces_errors in *. simpl.
    rewrite Ht, He, <- !app_assoc. rewrite <- Hline.
    repeat split; done.
Qed.

Lemma scan_pieces (src : pystr) :
  exists ps,
    lexes src 0 ps /\
    scan src =
      Ok (pieces_tokens ps ++ [mkToken EOF [] None (line_of src (length src))],
          pieces_errors ps).
Proof.
  destruct (main_loop_pieces (S (length src)) (S (length src)) (Scanner_init src))
    as (ps & s' & Hw & Hlex & Hs & Ht & He & Hl); simpl; try lia; try done.
  simpl in *. exists ps. split; [exact Hlex|].
  unfold scan, scan_with, scan_tokens.
  change (cur <- get current ;; modify (set_start cur) ;; scan_token (S (length src)))
    with (iteration (S (length src))).
  rewrite (bind_ok _ _ _ _ _ Hw).
  unfold bind, get, modify, ret. simpl. by rewrite Ht, He, Hl.
Qed.

Lemma lexes_texts src : forall ps off,
  lexes src off ps -> off <= length src -> concat (map p_text ps) = drop off src.
Proof.
  induction ps as [|p ps IH]; intros off Hlex Hoff; simpl in *.
  - by rewrite drop_ge.
  - destruct Hlex as (Htext & _ & _ & Hlex).
    rewrite (IH _ Hlex); [by rewrite <- Htext|]. by eapply prefix_bound.
Qed.

(** X1.  The scan segments the source, from left to right and up to its
    end, into consecutive non-empty pieces whose concatenation is the source.
    Each piece is one of: the lexeme of a token whose kind, lexeme and literal
    agree and which is as long as it can be, with the line counter's value
    after the piece as line; trivia (a whitespace or newline character, or a
    comment up to the end of the line); one character matched by no rule, with
    its diagnostic for the line of the character; or a string that is not
    closed, running to the end of the source, with its diagnostic.  The tokens
    are those of the pieces, in order, followed by EOF on the last line; the
    diagnostics are those of the pieces, in order. *)
Theorem scan_segmentation (src : pystr) :
  exists ps,
    lexes src 0 ps /\
    concat (map p_text ps) = src /\
    scan src =
      Ok (pieces_tokens ps ++ [mkToken EOF [] None (line_of src (length src))],
          pieces_errors ps).
Proof.
  destruct (scan_pieces src) as (ps & Hlex & Hscan).
  exists ps. split; [exact Hlex|]. split; [|exact Hscan].
  rewrite (lexes_texts _ _ _ Hlex); [done | lia].
Qed.

Lemma lexes_tokens_ok src : forall ps off,
  lexes src off ps ->
  Forall (fun t => token_ok (type t) (lexeme t) (literal t)) (pieces_tokens ps).
Proof.
  unfold pieces_tokens.
  induction ps as [|p ps IH]; intros off Hlex; simpl in *; [constructor|].
  destruct Hlex as (_ & _ & Hcase & Hlex). apply Forall_app. split; [|by eapply IH].
  destruct Hcase; repeat constructor. done.
Qed.

(** X2.  In every token the scan returns, kind, lexeme and literal agree:
    a STRING has a lexeme in quotes and the text between them, which holds no
    quote, as literal; a NUMBER has a lexeme of digits, optionally a dot and
    digits, and [float] of the lexeme as literal; an IDENTIFIER has a lexeme
    that starts with a letter or underscore, goes on with letters, digits and
    underscores and is no reserved word, and no literal; every other kind
    has its one lexeme (empty for EOF) and no literal. *)
Theorem scan_tokens_well_formed (src : pystr) :
  exists toks errs,
    scan src = Ok (toks, errs) /\
    Forall (fun t => token_ok (type t) (lexeme t) (literal t)) toks.
Proof.
  destruct (scan_pieces src) as (ps & Hlex & Hscan).
  eexists _, _. split; [exact Hscan|].
  apply Forall_app. split; [by eapply lexes_tokens_ok|].
  repeat constructor.
Qed.

Lemma step_case_counts ln text rest toks errs :
  step_case ln text rest toks errs ->
  length toks <= 1 /\ length errs <= 1 /\
  sum_list_with (fun t => length (lexeme t)) toks <= length text.
Proof. intros []; simpl; lia. Qed.

Lemma lexes_counts src : forall ps off,
  lexes src off ps -> off <= length src ->
  length ps + off <= length src /\
  length (pieces_tokens ps) <= length ps /\
  length (pieces_errors ps) <= length ps /\
  sum_list_with (fun t => length (lexeme t)) (pieces_tokens ps) + off <= length src.
Proof.
  unfold pieces_tokens, pieces_errors.
  induction ps as [|p ps IH]; intros off Hlex Hoff; simpl in *; [lia|].
  destruct Hlex as (Htext & Hne & Hcase & Hlex).
  pose proof (prefix_bound _ _ _ _ Hoff Htext) as Hbound.
  destruct (IH _ Hlex Hbound) as (H1 & H2 & H3 & H4).
  destruct (step_case_counts _ _ _ _ _ Hcase) as (C1 & C2 & C3).
  assert (length (p_text p) <> 0) by (destruct (p_text p); [done | simpl; lia]).
  rewrite !length_app, sum_list_with_app. lia.
Qed.

(** X3.  The scan returns at most one token per character of the source,
    plus EOF, and at most one diagnostic per character; the lexemes of the
    tokens together are no longer than the source. *)
Theorem scan_output_bounds (src : pystr) :
  exists toks errs,
    scan src = Ok (toks, errs) /\
    length toks <= length src + 1 /\
    length errs <= length src /\
    sum_list_with (fun t => length (lexeme t)) toks <= length src.
Proof.
  destruct (scan_pieces src) as (ps & Hlex & Hscan).
  destruct (lexes_counts _ _ _ Hlex) as (H1 & H2 & H3 & H4); [lia|].
  eexists _, _. split; [exact Hscan|].
  rewrite length_app, sum_list_with_app. simpl. lia.
Qed.

Lemma count_nl_take_le (l : pystr) n : count_nl (take n l) <= count_nl l.
Proof. rewrite <- (take_drop n l) at 2. rewrite count_nl_app. lia. Qed.

Lemma line_of_le (src : pystr) a b : a <= b -> line_of src a <= line_of src b.
Proof.
  intros Hab. unfold line_of.
  replace (take a src) with (take a (take b src)) by (rewrite take_take; f_equal; lia).
  pose proof (count_nl_take_le (take b src) a). lia.
Qed.

Lemma piece_chars (src : pystr) off text rest c :
  drop off src = text ++ rest -> c ∈ text -> c ∈ src.
Proof.
  intros Hd Hc. rewrite <- (take_drop off src), Hd.
  apply elem_of_app. right. apply elem_of_app. by left.
Qed.

Lemma lexes_diagnostics src : forall ps off,
  lexes src off ps -> off <= length src ->
  Forall (diag_ok src) (pieces_errors ps).
Proof.
  unfold pieces_errors.
  induction ps as [|p ps IH]; intros off Hlex Hoff; simpl in *; [constructor|].
  destruct Hlex as (Htext & Hne & Hcase & Hlex).
  pose proof (prefix_bound _ _ _ _ Hoff Htext) as Hbound.
  apply Forall_app. split; [|by eapply IH].
  assert (H1 : 1 <= line_of src off) by (unfold line_of; lia).
  assert (H2 : line_of src off <= 1 + count_nl src).
  { rewrite <- line_of_end. by apply line_of_le. }
  assert (H3 : line_of src off + count_nl (p_text p) <= 1 + count_nl src).
  { rewrite <- (line_of_advance _ _ _ _ Htext), <- line_of_end. by apply line_of_le. }
  destruct Hcase as [| |c Hc Hno|body Hb Hq Hr]; repeat constructor.
  - exists (line_of src off). split; [lia|]. right. exists c.
    split; [|split; [exact Hno | reflexivity]].
    apply (piece_chars _ _ _ _ _ Htext). rewrite Hc. by left.
  - exists (line_of src off + count_nl (p_text p)). split; [lia|]. by left.
Qed.

(** X4.  Every diagnostic the scan returns has the form
    [[line N] Error: message], where N is a line of the source (between 1
    and one more than the number of its newlines) and the message is either
    the unterminated-string message or the unexpected-character message for a
    character of the source that no rule matches. *)
Theorem scan_diagnostics_classified (src : pystr) :
  exists toks errs,
    scan src = Ok (toks, errs) /\ Forall (diag_ok src) errs.
Proof.
  destruct (scan_pieces src) as (ps & Hlex & Hscan).
  eexists _, _. split; [exact Hscan|]. apply (lexes_diagnostics _ _ _ Hlex). lia.
Qed.

Lemma lexes_clean src : forall ps off,
  Forall (fun c => matches_no_rule c = false) src -> QUOTE ∉ src ->
  lexes src off ps -> pieces_errors ps = [].
Proof.
  unfold pieces_errors. intros ps off Hrules Hq. revert off.
  induction ps as [|p ps IH]; intros off Hlex; simpl in *; [done|].
  destruct Hlex as (Htext & Hne & Hcase & Hlex).
  rewrite (IH _ Hlex), app_nil_r.
  destruct Hcase as [| |c Hc Hno|body Hb _ _]; try done.
  - exfalso. rewrite Forall_forall in Hrules.
    assert (c ∈ src) by (apply (piece_chars _ _ _ _ _ Htext); rewrite Hc; by left).
    specialize (Hrules c H). congruence.
  - exfalso. apply Hq. apply (piece_chars _ _ _ _ _ Htext). rewrite Hb. by left.
Qed.

(** X5.  Diagnostics have only two causes.  When every character of the
    source is matched by some rule and the source holds no double quote, the
    scan returns no diagnostic. *)
Theorem scan_without_diagnostics (src : pystr) :
  Forall (fun c => matches_no_rule c = false) src ->
  QUOTE ∉ src ->
  exists toks, scan src = Ok (toks, []).
Proof.
  intros Hrules Hq. destruct (scan_pieces src) as (ps & Hlex & Hscan).
  rewrite (lexes_clean _ _ _ Hrules Hq Hlex) in Hscan. eauto.
Qed.

Lemma scan_without_diagnostics_witness :
  exists toks, scan (pystr_of "a = 1; // ok") = Ok (toks, []).
Proof.
  apply scan_without_diagnostics.
  - apply Forall_forall. intros c Hc. repeat (apply elem_of_cons in Hc as [->|Hc]; [reflexivity|]).
    by apply elem_of_nil in Hc.
  - apply (bool_decide_unpack _). vm_compute. exact I.
Defined.

(** * Beyond the claims: the remaining branches of [scan_token] *)

Lemma step_to_single fuel s c ty :
  source s !! current s = Some c -> c <> NL ->
  dispatch fuel c = add_token ty None ->
  step_to fuel s 1 (cur_line s) [mkToken ty [c] None (cur_line s)] [].
Proof.
  intros Hc Hnl Hd. unfold step_to.
  rewrite (iteration_begin _ _ _ Hc), Hd, (single_token_step _ _ _ Hc Hnl).
  apply Ok_state. unfold after. by rewrite (single_not_nl _ Hnl), Nat.add_0_r, app_nil_r.
Qed.

(** X6.  Each of the ten punctuation characters gives, in one iteration,
    one token of its kind, with the character as lexeme and no literal, on the
    current line; the cursor moves by one. *)
Theorem punctuation_tokens fuel s c ty :
  (c, ty) ∈ punctuation_table ->
  source s !! current s = Some c ->
  step_to fuel s 1 (cur_line s) [mkToken ty [c] None (cur_line s)] [].
Proof.
  unfold punctuation_table. intros Hin Hc.
  repeat (apply elem_of_cons in Hin as [[= -> ->]|Hin];
          [by apply step_to_single|]).
  by apply elem_of_nil in Hin.
Qed.

Lemma punctuation_tokens_witness :
  step_to 3 (Scanner_init (pystr_of "{}")) 1 1 [mkToken LEFT_BRACE (pystr_of "{") None 1] [].
Proof.
  apply (punctuation_tokens 3 (Scanner_init (pystr_of "{}")) (ch "{") LEFT_BRACE).
  - apply (bool_decide_unpack _). vm_compute. exact I.
  - reflexivity.
Defined.

Lemma step_to_operator fuel s c ty1 ty2 :
  source s !! current s = Some c -> c <> NL ->
  dispatch fuel c =
    (b <- match_ (ch "=") ;; if b then add_token ty2 None else add_token ty1 None) ->
  (source s !! (current s + 1) = Some (ch "=") ->
   step_to fuel s 2 (cur_line s) [mkToken ty2 [c; ch "="] None (cur_line s)] []) /\
  (source s !! (current s + 1) <> Some (ch "=") ->
   step_to fuel s 1 (cur_line s) [mkToken ty1 [c] None (cur_line s)] []).
Proof.
  intros Hc Hnl Hd.
  assert (Hstep := operator_step s c (ch "=") ty2 ty1 Hc Hnl ltac:(discriminate)).
  assert (Hnl2 : count_nl [c; ch "="] = 0) by (apply count_nl_none; by repeat constructor).
  split; intros Hnext; unfold step_to; rewrite (iteration_begin _ _ _ Hc), Hd, Hstep.
  - rewrite bool_decide_eq_true_2 by done. apply Ok_state. unfold after.
    by rewrite Hnl2, Nat.add_0_r, app_nil_r.
  - rewrite bool_decide_eq_false_2 by done. apply Ok_state. unfold after.
    by rewrite (single_not_nl _ Hnl), Nat.add_0_r, app_nil_r.
Qed.

(** X7.  Each of [!], [=], [<] and [>] gives, in one iteration, the
    two-character token when the next character is [=], which is consumed
    with it, and the one-character token otherwise, leaving the next character
    in place. *)
Theorem operator_tokens fuel s c ty1 ty2 :
  (c, ty1, ty2) ∈ operator_table ->
  source s !! current s = Some c ->
  (source s !! (current s + 1) = Some (ch "=") ->
   step_to fuel s 2 (cur_line s) [mkToken ty2 [c; ch "="] None (cur_line s)] []) /\
  (source s !! (current s + 1) <> Some (ch "=") ->
   step_to fuel s 1 (cur_line s) [mkToken ty1 [c] None (cur_line s)] []).
Proof.
  unfold operator_table. intros Hin Hc.
  repeat (apply elem_of_cons in Hin as [[= -> -> ->]|Hin];
          [by apply step_to_operator|]).
  by apply elem_of_nil in Hin.
Qed.

Lemma operator_tokens_witness :
  step_to 3 (Scanner_init (pystr_of "<=")) 2 1 [mkToken LESS_EQUAL (pystr_of "<=") None 1] [] /\
  step_to 3 (Scanner_init (pystr_of "<<")) 1 1 [mkToken LESS (pystr_of "<") None 1] [].
Proof.
  split.
  - apply (proj1 (operator_tokens 3 (Scanner_init (pystr_of "<=")) (ch "<") LESS LESS_EQUAL
                    ltac:(apply (bool_decide_unpack _); vm_compute; exact I) eq_refl)).
    reflexivity.
  - apply (proj2 (operator_tokens 3 (Scanner_init (pystr_of "<<")) (ch "<") LESS LESS_EQUAL
                    ltac:(apply (bool_decide_unpack _); vm_compute; exact I) eq_refl)).
    discriminate.
Defined.

Lemma dispatch_slash fuel :
  dispatch fuel (ch "/") =
    (b <- match_ (ch "/") ;;
     if b then
       while fuel (c <- peek ;; e <- is_at_end ;; ret (negb (c =? NL)%N && negb e))
                  (advance ;; ret tt)
     else add_token SLASH None).
Proof. reflexivity. Qed.

(** X8.  A slash followed by a second slash starts a comment: the iteration
    consumes both and everything up to, but not including, the next newline
    (or up to the end of the source), and appends neither token nor
    diagnostic; the newline is left for the next iteration, so the token after
    the comment is on the next line.  A slash not followed by a slash is a
    SLASH token. *)
Theorem slash_or_comment :
  (forall fuel s body rest,
     length (source s) < fuel ->
     drop (current s) (source s) = ch "/" :: ch "/" :: body ++ rest ->
     NL ∉ body -> stops not_nl rest ->
     step_to fuel s (2 + length body) (cur_line s) [] []) /\
  (forall fuel s,
     length (source s) < fuel ->
     source s !! current s = Some (ch "/") ->
     source s !! (current s + 1) <> Some (ch "/") ->
     step_to fuel s 1 (cur_line s) [mkToken SLASH [ch "/"] None (cur_line s)] []) /\
  scan comment_then_number =
    Ok ([mkToken NUMBER (pystr_of "1") (Some (LNum 1%float)) 2; mkToken EOF [] None 2], []).
Proof.
  split; [|split; [|reflexivity]].
  - intros fuel s body rest Hf Hd Hnl Hrest.
    assert (Hc : source s !! current s = Some (ch "/")).
    { rewrite <- (Nat.add_0_r (current s)), <- lookup_drop, Hd. reflexivity. }
    assert (Hc1 : source s !! (current s + 1) = Some (ch "/")).
    { rewrite <- lookup_drop, Hd. reflexivity. }
    assert (Hd2 : drop (current s + 2) (source s) = body ++ rest).
    { rewrite <- drop_drop, Hd. reflexivity. }
    assert (Hall : Forall (fun c => not_nl c = true) body).
    { apply Forall_forall. intros c Hin. unfold not_nl.
      apply negb_true_iff, N.eqb_neq. intros ->. by apply Hnl. }
    pose proof (slash_step fuel s (ch "/") Hf Hc eq_refl) as Hstep.
    rewrite bool_decide_eq_true_2 in Hstep by done.
    rewrite Hd2, (take_while_app not_nl body rest Hall Hrest) in Hstep.
    unfold step_to. rewrite (iteration_begin _ _ _ Hc), dispatch_slash, Hstep.
    apply Ok_state. unfold after.
    assert (Hcount : count_nl (ch "/" :: ch "/" :: body) = 0).
    { apply count_nl_none. repeat (constructor; [discriminate|]).
      by apply (Forall_passing_not_nl not_nl). }
    by rewrite Hcount, Nat.add_0_r, !app_nil_r.
  - intros fuel s Hf Hc Hnext.
    pose proof (slash_step fuel s (ch "/") Hf Hc eq_refl) as Hstep.
    rewrite bool_decide_eq_false_2 in Hstep by done.
    unfold step_to. rewrite (iteration_begin _ _ _ Hc), dispatch_slash, Hstep.
    apply Ok_state. unfold after.
    assert (Hcount : count_nl [ch "/"] = 0) by reflexivity.
    by rewrite Hcount, Nat.add_0_r, !app_nil_r.
Qed.

Lemma slash_or_comment_witness :
  step_to 20 (Scanner_init comment_then_number) 10 1 [] [] /\
  step_to 5 (Scanner_init (pystr_of "/2")) 1 1 [mkToken SLASH (pystr_of "/") None 1] [].
Proof.
  split.
  - apply (proj1 slash_or_comment 20 (Scanner_init comment_then_number)
             (pystr_of " comment") (NL :: pystr_of "1")).
    + simpl. lia.
    + reflexivity.
    + apply (bool_decide_unpack _). vm_compute. exact I.
    + reflexivity.
  - apply (proj1 (proj2 slash_or_comment) 5 (Scanner_init (pystr_of "/2"))).
    + simpl. lia.
    + reflexivity.
    + discriminate.
Defined.

(** X9.  A space, carriage return or tab is consumed without any other
    effect; a newline is consumed and adds one to the line counter; neither
    appends a token or a diagnostic. *)
Theorem whitespace_and_newline fuel s c :
  source s !! current s = Some c ->
  (c ∈ [ch " "; CR; TAB] -> step_to fuel s 1 (cur_line s) [] []) /\
  (c = NL -> step_to fuel s 1 (cur_line s + 1) [] []).
Proof.
  intros Hc. split.
  - intros Hin.
    assert (Hd : c <> NL /\ dispatch fuel c = ret tt).
    { repeat (apply elem_of_cons in Hin as [->|Hin]; [by split|]).
      by apply elem_of_nil in Hin. }
    destruct Hd as [Hnl Hd].
    unfold step_to. rewrite (iteration_begin _ _ _ Hc), Hd.
    unfold ret. apply Ok_state. rewrite (whitespace_step _ _ Hc Hnl).
    unfold after. by rewrite (single_not_nl _ Hnl), Nat.add_0_r, !app_nil_r.
  - intros ->.
    unfold step_to. rewrite (iteration_begin _ _ _ Hc).
    change (dispatch fuel NL) with (ln <- get cur_line ;; modify (set_line (ln + 1))).
    rewrite (newline_step _ Hc). apply Ok_state. unfold after.
    by rewrite !app_nil_r.
Qed.

Lemma whitespace_and_newline_witness :
  step_to 3 (Scanner_init [TAB; NL]) 1 1 [] [] /\
  step_to 3 (Scanner_init [NL; TAB]) 1 2 [] [].
Proof.
  split.
  - apply (proj1 (whitespace_and_newline 3 (Scanner_init [TAB; NL]) TAB eq_refl)).
    apply (bool_decide_unpack _). vm_compute. exact I.
  - apply (proj2 (whitespace_and_newline 3 (Scanner_init [NL; TAB]) NL eq_refl)).
    reflexivity.
Defined.

Lemma blank_facts c :
  blank c ->
  is_digit c = false /\ is_alpha c = false /\ c <> QUOTE /\ matches_no_rule c = false.
Proof.
  unfold blank. intros Hb.
  repeat (apply elem_of_cons in Hb as [->|Hb]; [by repeat split|]).
  by apply elem_of_nil in Hb.
Qed.

Lemma token_first_char ty c r lit : token_ok ty (c :: r) lit -> ~ blank c.
Proof.
  intros Hok Hb. destruct (blank_facts c Hb) as (Hd & Ha & Hq & _).
  destruct ty; simpl in Hok;
    try (destruct Hok as [Hok _]; vm_compute in Hok;
         first [ discriminate Hok
               | injection Hok as <- _; unfold blank in Hb;
                 apply (bool_decide_pack _) in Hb; by vm_compute in Hb ]).
  - destruct Hok as (v & [= -> _] & _). done.
  - destruct Hok as ((ds & fr & Heq & Hne & Hds & _) & _).
    destruct ds as [|d ds]; [done|]. injection Heq as -> _.
    inversion Hds; subst. congruence.
  - destruct Hok as ((c' & r' & [= -> _] & Hc & _) & _). congruence.
Qed.

Lemma blank_piece ln text rest toks errs :
  step_case ln text rest toks errs -> text <> [] -> Forall blank text ->
  toks = [] /\ errs = [].
Proof.
  intros Hcase Hne Hall. destruct text as [|c r]; [done|].
  inversion Hall as [|? ? Hb _]; subst.
  destruct (blank_facts c Hb) as (_ & _ & Hq & Hrule).
  destruct Hcase as [ty lit Hok _| |c' [= -> _] Hno|body [= -> _] _ _]; try done.
  - by destruct (token_first_char _ _ _ _ Hok).
  - congruence.
Qed.

Lemma lexes_blank src : forall ps off,
  Forall blank src -> lexes src off ps ->
  pieces_tokens ps = [] /\ pieces_errors ps = [].
Proof.
  unfold pieces_tokens, pieces_errors. intros ps off Hall. revert off.
  induction ps as [|p ps IH]; intros off Hlex; simpl in *; [done|].
  destruct Hlex as (Htext & Hne & Hcase & Hlex).
  destruct (IH _ Hlex) as [-> ->].
  assert (Hb : Forall blank (p_text p)).
  { apply Forall_forall. intros c Hc. rewrite Forall_forall in Hall.
    apply Hall. by apply (piece_chars _ _ _ _ _ Htext). }
  by destruct (blank_piece _ _ _ _ _ Hcase Hne Hb) as [-> ->].
Qed.

(** X10.  A source made only of spaces, carriage returns, tabs and
    newlines gives the EOF token alone, on the line after the last newline,
    and no diagnostic. *)
Theorem blank_source_scans_to_EOF (src : pystr) :
  Forall blank src ->
  scan src = Ok ([mkToken EOF [] None (1 + count_nl src)], []).
Proof.
  intros Hall. destruct (scan_pieces src) as (ps & Hlex & Hscan).
  destruct (lexes_blank _ _ _ Hall Hlex) as [Ht He].
  by rewrite Hscan, Ht, He, line_of_end.
Qed.

Lemma blank_source_scans_to_EOF_witness :
  scan [ch " "; NL; TAB; NL; CR] = Ok ([mkToken EOF [] None 3], []).
Proof.
  apply (blank_source_scans_to_EOF [ch " "; NL; TAB; NL; CR]).
  repeat constructor; apply (bool_decide_unpack _); vm_compute; exact I.
Defined.

(** * Beyond the claims: the helper methods and repeated scans *)

(** X11.  [advance], and with it [scan_token], raises [IndexError] when the
    cursor is at or past the end of the source: the test [is_at_end] of
    the loop of [scan_tokens] is what keeps the scan from failing. *)
Theorem scan_token_at_end_raises fuel s :
  length (source s) <= current s ->
  advance s = Raise IndexError /\ scan_token fuel s = Raise IndexError.
Proof.
  intros Hend.
  assert (Ha : advance s = Raise IndexError).
  { unfold advance, bind, get, modify, index. simpl.
    replace (current s + 1 - 1) with (current s) by lia.
    by rewrite (lookup_ge_None_2 _ _ Hend). }
  split; [exact Ha|]. unfold scan_token, bind. by rewrite Ha.
Qed.

Lemma scan_token_at_end_raises_witness :
  advance (Scanner_init []) = Raise IndexError /\
  scan_token 5 (Scanner_init []) = Raise IndexError.
Proof. apply (scan_token_at_end_raises 5 (Scanner_init [])). simpl. lia. Defined.

(** X12.  [peek] and [peek_next] never raise and never change the scanner:
    they return the character at the cursor, respectively one after it, and
    the character of code 0 when that position is outside the source. *)
Theorem lookahead_is_safe s :
  peek s = Ok (default NUL (source s !! current s), s) /\
  peek_next s = Ok (default NUL (source s !! (current s + 1)), s).
Proof. split; [apply peek_run | apply peek_next_run]. Qed.

(** X13.  [match] never raises.  It returns true and moves the cursor by
    one exactly when the character at the cursor is the expected one;
    otherwise, also at the end of the source, it returns false and leaves the
    scanner unchanged. *)
Theorem match_consumes_expected s expected :
  (source s !! current s = Some expected ->
   match_ expected s = Ok (true, set_current (current s + 1) s)) /\
  (source s !! current s <> Some expected ->
   match_ expected s = Ok (false, s)).
Proof.
  split; intros H; rewrite match_run.
  - by rewrite bool_decide_eq_true_2.
  - by rewrite bool_decide_eq_false_2.
Qed.

Lemma match_consumes_expected_witness :
  match_ (ch "=") (Scanner_init (pystr_of "=")) =
    Ok (true, set_current 1 (Scanner_init (pystr_of "="))) /\
  match_ (ch "=") (Scanner_init []) = Ok (false, Scanner_init []).
Proof.
  split.
  - apply (proj1 (match_consumes_expected (Scanner_init (pystr_of "=")) (ch "="))).
    reflexivity.
  - apply (proj2 (match_consumes_expected (Scanner_init []) (ch "="))).
    discriminate.
Defined.

Lemma scan_tokens_at_end fuel s :
  length (source s) <= current s ->
  scan_tokens (S fuel) s =
    Ok ((tokens s ++ [mkToken EOF [] None (cur_line s)], errors s),
        set_tokens (tokens s ++ [mkToken EOF [] None (cur_line s)]) s).
Proof.
  intros Hend. unfold scan_tokens.
  erewrite bind_ok; [reflexivity|].
  cbn [while]. rewrite (bind_ok _ _ _ _ _ (at_end_cond_run s)).
  by rewrite (leb_correct _ _ Hend).
Qed.

(** X14.  The scanner keeps its state after a scan: calling [scan_tokens] a
    second time on the same scanner object scans nothing, returns the tokens
    of the first call followed by a second EOF token on the same line, and
    returns the same diagnostics. *)
Theorem scan_tokens_twice (src : pystr) :
  exists toks errs sf,
    scan_tokens (S (length src)) (Scanner_init src) = Ok ((toks, errs), sf) /\
    forall fuel,
      exists sf',
        scan_tokens (S fuel) sf =
          Ok ((toks ++ [mkToken EOF [] None (1 + count_nl src)], errs), sf').
Proof.
  destruct (scan_run src) as (sf & Hrun & Hscan).
  pose proof (run_current _ _ Hrun) as Hcur.
  pose proof (run_source _ _ Hrun) as Hsrc.
  pose proof (run_line _ _ Hrun) as Hline. simpl in *.
  eexists _, _, _. split; [apply Hscan; lia|].
  intros fuel. eexists. rewrite scan_tokens_at_end.
  - simpl. by rewrite Hline.
  - simpl. rewrite Hsrc, Hcur; [done | lia].
Qed.

(** X15.  Each reserved word of the table, scanned alone, gives one token of
    its kind with the word as lexeme, followed by EOF, and no diagnostic:
    every key of the table is a lexeme that [identifier] can produce. *)
Theorem reserved_words_scan (w : pystr) (ty : TokenType) :
  (w, ty) ∈ reserved_table ->
  scan w = Ok ([mkToken ty w None 1; mkToken EOF [] None 1], []).
Proof.
  unfold reserved_table. intros Hin.
  repeat (apply elem_of_cons in Hin as [[= -> ->]|Hin]; [by vm_compute|]).
  by apply elem_of_nil in Hin.
Qed.

Lemma reserved_words_scan_witness :
  scan (pystr_of "return") =
    Ok ([mkToken RETURN (pystr_of "return") None 1; mkToken EOF [] None 1], []).
Proof.
  apply (reserved_words_scan (pystr_of "return") RETURN).
  apply (bool_decide_unpack _). vm_compute. exact I.
Defined.

(** * Beyond the claims: printing tokens *)

Lemma value_no_space ty : Forall (fun c => not_space c = true) (TokenType_value ty).
Proof. destruct ty; vm_compute; repeat constructor. Qed.

Lemma Token_str_first_word str_float t :
  take_while not_space (Token_str str_float t) = TokenType_value (type t).
Proof.
  unfold Token_str. apply take_while_app; [apply value_no_space | reflexivity].
Qed.

Lemma kind_of_value ty :
  snd <$> list_find (fun ty' => TokenType_value ty' = TokenType_value ty) all_kinds = Some ty.
Proof. destruct ty; by vm_compute. Qed.

(** X16.  The line printed for a token begins with the name of its kind,
    which holds no space, so the kind can be read back from the first word of
    the line; two tokens that print the same line have the same kind. *)
Theorem printed_token_shows_kind :
  (forall str_float t, kind_of_line (Token_str str_float t) = Some (type t)) /\
  (forall str_float str_float' t1 t2,
     Token_str str_float t1 = Token_str str_float' t2 -> type t1 = type t2).
Proof.
  assert (H : forall str_float t, kind_of_line (Token_str str_float t) = Some (type t)).
  { intros. unfold kind_of_line. rewrite Token_str_first_word. apply kind_of_value. }
  split; [exact H|].
  intros sf sf' t1 t2 Heq.
  pose proof (H sf t1) as H1. rewrite Heq, H in H1. by injection H1.
Qed.

Lemma printed_token_shows_kind_witness :
  type (mkToken IF (pystr_of "if") None 1) = type (mkToken IF (pystr_of "if") None 7).
Proof.
  apply (proj2 printed_token_shows_kind (fun _ => []) (fun _ => [])). reflexivity.
Defined.


(** * Beyond the claims: characters outside ASCII *)

Lemma eqb_above (c k : N) : (128 <= c)%N -> (k < 128)%N -> (c =? k)%N = false.
Proof. intros Hc Hk. apply N.eqb_neq. lia. Qed.

Lemma leb_above (c k : N) : (128 <= c)%N -> (k < 128)%N -> (c <=? k)%N = false.
Proof. intros Hc Hk. apply N.leb_gt. lia. Qed.

Lemma non_ascii_no_rule c : (128 <= c)%N -> matches_no_rule c = true.
Proof.
  intros Hc. unfold matches_no_rule, is_digit, is_ascii_letter. simpl existsb.
  rewrite !(eqb_above c) by (done || reflexivity).
  rewrite !(leb_above c) by (done || reflexivity).
  by rewrite !andb_false_r.
Qed.

(** X18.  Letters and digits are the ASCII ones only: a character whose code
    is 128 or more is neither a digit nor a letter, matches no rule, and, met
    at the top level, is reported as an unexpected character and skipped. *)
Theorem non_ascii_is_unexpected fuel s c :
  (128 <= c)%N ->
  source s !! current s = Some c ->
  is_digit c = false /\ is_alpha_numeric c = false /\
  step_to fuel s 1 (cur_line s) []
    [pystr_of "[line " ++ str_int (cur_line s)
     ++ pystr_of "] Error: Unexpected character: " ++ [c]].
Proof.
  intros Hge Hc.
  pose proof (non_ascii_no_rule c Hge) as Hno.
  destruct (dispatch_no_rule fuel c Hno) as [Hnl Hd].
  assert (His : is_digit c = false /\ is_alpha_numeric c = false).
  { unfold is_alpha_numeric, is_alpha, is_digit.
    rewrite !(eqb_above c) by (done || reflexivity).
    rewrite !(leb_above c) by (done || reflexivity).
    by rewrite !andb_false_r. }
  destruct His as [H1 H2]. split; [exact H1|]. split; [exact H2|].
  unfold step_to. rewrite (iteration_begin _ _ _ Hc), Hd, (unexpected_step s c Hc Hnl).
  apply Ok_state. unfold after. rewrite (single_not_nl _ Hnl), app_nil_r, Nat.add_0_r.
  reflexivity.
Qed.

Lemma non_ascii_is_unexpected_witness :
  is_digit 233%N = false /\ is_alpha_numeric 233%N = false /\
  step_to 3 (Scanner_init [233%N]) 1 1 []
    [pystr_of "[line 1] Error: Unexpected character: " ++ [233%N]].
Proof.
  apply (non_ascii_is_unexpected 3 (Scanner_init [233%N]) 233%N).
  - vm_compute. discriminate.
  - reflexivity.
Defined.
